(** * common/logging.go: fan-out logging setup

    A shallow embedding of [SetupLogging] and its helpers
    ([setFireLevels], [getLogDriverConfig], [validateOpts], [setupSyslog],
    [setupFluentD], [setupFormatter]) together with the properties the
    specification states about them.

    Go maps are reference values, so the option maps live in a store and
    are passed around by location.  The logrus standard logger is process
    state.  [logrus.Fatal] ends the process, which is modelled as a
    distinguished outcome. *)

From stdpp Require Import gmap strings list fin_maps.
From Stdlib Require Import Ascii ZArith NArith.

Local Open Scope string_scope.
Local Open Scope list_scope.

(** ** Severity levels (logrus.Level) and syslog priorities *)

(** [logrus.Level] is an unsigned integer type; the six named levels are
    the constants 0..5 (declared with iota, Panic first).  Values above 5
    are representable but name no level. *)
Definition Level := N.

Definition PanicLevel : Level := 0%N.
Definition FatalLevel : Level := 1%N.
Definition ErrorLevel : Level := 2%N.
Definition WarnLevel  : Level := 3%N.
Definition InfoLevel  : Level := 4%N.
Definition DebugLevel : Level := 5%N.

(** The full enumeration, highest severity first. *)
Definition AllLevels : list Level :=
  [PanicLevel; FatalLevel; ErrorLevel; WarnLevel; InfoLevel; DebugLevel].

Definition defined_level (l : Level) : Prop := (l <= DebugLevel)%N.

(** [a] is at least as severe as [b]. *)
Definition at_or_above (a b : Level) : bool := (a <=? b)%N.

(** [syslog.Priority] severities (log/syslog). *)
Definition Priority := N.

Definition LOG_EMERG   : Priority := 0%N.
Definition LOG_ALERT   : Priority := 1%N.
Definition LOG_CRIT    : Priority := 2%N.
Definition LOG_ERR     : Priority := 3%N.
Definition LOG_WARNING : Priority := 4%N.
Definition LOG_NOTICE  : Priority := 5%N.
Definition LOG_INFO    : Priority := 6%N.
Definition LOG_DEBUG   : Priority := 7%N.

(** syslogLevelMap maps logrus.Level values to syslog.Priority levels. *)
Definition syslogLevelMap : gmap N N :=
  <[PanicLevel := LOG_ALERT]>
  (<[FatalLevel := LOG_CRIT]>
  (<[ErrorLevel := LOG_ERR]>
  (<[WarnLevel := LOG_WARNING]>
  (<[InfoLevel := LOG_INFO]>
  (<[DebugLevel := LOG_DEBUG]> ∅))))).

(** Indexing a Go map with an absent key yields the zero value. *)
Definition syslogLevelMap_at (l : Level) : Priority :=
  default LOG_EMERG (syslogLevelMap !! l).

(** setFireLevels: the levels a hook fires on for a configured level.  The
    default branch builds an error value, drops it, and returns nil. *)
Definition setFireLevels (level : Level) : list Level :=
  if decide (level = PanicLevel) then [PanicLevel]
  else if decide (level = FatalLevel) then [PanicLevel; FatalLevel]
  else if decide (level = ErrorLevel) then [PanicLevel; FatalLevel; ErrorLevel]
  else if decide (level = WarnLevel) then
    [PanicLevel; FatalLevel; ErrorLevel; WarnLevel]
  else if decide (level = InfoLevel) then
    [PanicLevel; FatalLevel; ErrorLevel; WarnLevel; InfoLevel]
  else if decide (level = DebugLevel) then
    [PanicLevel; FatalLevel; ErrorLevel; WarnLevel; InfoLevel; DebugLevel]
  else [].

(** ** Supported option tables *)

(** syslogOpts is the set of supported options for syslog configuration. *)
Definition syslogOpts : gmap string bool :=
  <["syslog.level" := true]> ∅.

(** fluentDOpts is the set of supported options for fluentD configuration. *)
Definition fluentDOpts : gmap string bool :=
  <["fluentd.address" := true]>
  (<["fluentd.tag" := true]>
  (<["fluentd.level" := true]> ∅)).

(** logstashOpts is the set of supported options for logstash configuration. *)
Definition logstashOpts : gmap string bool :=
  <["logstash.address" := true]>
  (<["logstash.level" := true]>
  (<["logstash.protocol" := true]> ∅)).

(** [supportedOpts[k]]: absent keys read as false. *)
Definition supported (supportedOpts : gmap string bool) (k : string) : bool :=
  default false (supportedOpts !! k).

(** ** Strings *)

(** strings.HasPrefix(s, p) *)
Definition HasPrefix (s p : string) : bool := String.prefix p s.

(** strings.Contains(s, substr) *)
Fixpoint Contains (s substr : string) : bool :=
  HasPrefix s substr ||
  match s with
  | EmptyString => false
  | String _ s' => Contains s' substr
  end.

(** Characters with a special meaning in Go regular expressions. *)
Definition regexp_special : list ascii :=
  String.list_ascii_of_string "\.+*?()|[]{}^$".

(** A plain name: 7-bit characters only, none of them special. *)
Definition plain_char (a : ascii) : bool :=
  (N_of_ascii a <? 128)%N && negb (bool_decide (a ∈ regexp_special)).

Definition plain_name (p : string) : bool :=
  forallb plain_char (String.list_ascii_of_string p).

(** strings.ToLower on 7-bit letters. *)
Definition lower_char (a : ascii) : ascii :=
  let n := N_of_ascii a in
  if (65 <=? n)%N && (n <=? 90)%N then ascii_of_N (n + 32) else a.

Fixpoint ToLower (s : string) : string :=
  match s with
  | EmptyString => EmptyString
  | String a s' => String (lower_char a) (ToLower s')
  end.

(** logrus.ParseLevel (vendored logrus): the level named by the string,
    compared case-insensitively; [None] stands for the returned error. *)
Definition ParseLevel (lvl : string) : option Level :=
  let l := ToLower lvl in
  if decide (l = "panic") then Some PanicLevel
  else if decide (l = "fatal") then Some FatalLevel
  else if decide (l = "error") then Some ErrorLevel
  else if decide (l = "warn") then Some WarnLevel
  else if decide (l = "warning") then Some WarnLevel
  else if decide (l = "info") then Some InfoLevel
  else if decide (l = "debug") then Some DebugLevel
  else None.

(** ** The logrus standard logger *)

Inductive Output := Stderr | Discard.

(** logrus.TextFormatter, the fields this file sets. *)
Record TextFormatter := {
  DisableColors : bool;
  DisableTimestamp : bool;
  FullTimestamp : bool;
  TimestampFormat : string
}.

(** new(logrus.TextFormatter): every field at its zero value. *)
Definition new_TextFormatter : TextFormatter :=
  {| DisableColors := false; DisableTimestamp := false;
     FullTimestamp := false; TimestampFormat := "" |}.

(** time.RFC3339 *)
Definition RFC3339 : string := "2006-01-02T15:04:05Z07:00".

(** logrus_syslog.SyslogHook: a writer dialled with a priority and a tag. *)
Record SyslogHook := {
  sh_network : string;
  sh_raddr : string;
  sh_priority : Priority;
  sh_tag : string
}.

(** logrus_fluent.FluentHook: the collector's address, an optional fixed
    tag, and the explicit list of levels the hook fires on. *)
Record FluentHook := {
  fh_host : string;
  fh_port : Z;
  fh_tag : option string;
  fh_levels : list Level
}.

Inductive Hook :=
| HSyslog (h : SyslogHook)
| HFluent (h : FluentHook).

Definition is_syslog (h : Hook) : bool :=
  match h with HSyslog _ => true | HFluent _ => false end.

Definition is_fluent (h : Hook) : bool :=
  match h with HFluent _ => true | HSyslog _ => false end.

(** (h *FluentHook) SetTag / SetLevels *)
Definition SetTag (tag : string) (h : FluentHook) : FluentHook :=
  {| fh_host := fh_host h; fh_port := fh_port h;
     fh_tag := Some tag; fh_levels := fh_levels h |}.

Definition SetLevels (levels : list Level) (h : FluentHook) : FluentHook :=
  {| fh_host := fh_host h; fh_port := fh_port h;
     fh_tag := fh_tag h; fh_levels := levels |}.

Record Emitter := {
  em_out : Output;
  em_formatter : TextFormatter;
  em_level : Level;
  em_hooks : list Hook
}.

(** The standard logger before any setup: stderr, text format, Info. *)
Definition logrus_std : Emitter :=
  {| em_out := Stderr; em_formatter := new_TextFormatter;
     em_level := InfoLevel; em_hooks := [] |}.

(** ** Process state *)

(** A Go [map[string]string] value is a reference into [maps]. *)
Definition loc := nat.

Record State := {
  emitter : Emitter;
  maps : list (gmap string string)
}.

Definition with_emitter (f : Emitter → Emitter) (s : State) : State :=
  {| emitter := f (emitter s); maps := maps s |}.

Definition with_maps
    (f : list (gmap string string) → list (gmap string string))
    (s : State) : State :=
  {| emitter := emitter s; maps := f (maps s) |}.

(** Reading through a reference that holds no map behaves like reading a
    nil map: no entries. *)
Definition deref (s : State) (l : loc) : gmap string string :=
  default ∅ (maps s !! l).

(** ** What the runtime and the libraries decide

    The pieces of behaviour that belong to the Go runtime, the operating
    system and the imported packages, with the facts about them this
    development relies on. *)
Record Env := {
  (** os.Getenv *)
  Getenv : string → string;
  (** the order in which [range] visits a map's entries *)
  range : gmap string string → list (string * string);
  range_perm : ∀ m, range m ≡ₚ map_to_list m;
  (** regexp.Compile succeeds on the pattern *)
  regexp_compiles : string → bool;
  (** some substring of the text matches the compiled pattern *)
  regexp_matches : string → string → bool;
  (** A plain name followed by [.*] compiles, and finds a match exactly
      in the texts that contain the name: [.*] also matches nothing. *)
  regexp_plain : ∀ p k, plain_name p = true →
    regexp_compiles (p +:+ ".*") = true ∧
    regexp_matches (p +:+ ".*") k = Contains k p;
  (** syslog.Dial reaches the log daemon *)
  syslog_Dial : string → string → Priority → string → bool;
  (** net.SplitHostPort; [None] is its error *)
  SplitHostPort : string → option (string * string);
  (** strconv.Atoi; [None] is its error *)
  Atoi : string → option Z;
  Atoi_empty : Atoi "" = None;
  (** fluent.New connects to the collector *)
  fluent_connect : string → Z → bool;
  (** the levels a freshly built fluent hook starts with *)
  fluent_defaultLevels : list Level
}.

(** regexp.MatchString(pattern, s): [None] is the compile error. *)
Definition MatchString (E : Env) (pattern s : string) : option bool :=
  if regexp_compiles E pattern then Some (regexp_matches E pattern s)
  else None.

(** logrus_syslog.NewSyslogHook: [None] is the dial error. *)
Definition NewSyslogHook (E : Env) (network raddr : string)
    (priority : Priority) (tag : string) : option SyslogHook :=
  if syslog_Dial E network raddr priority tag then
    Some {| sh_network := network; sh_raddr := raddr;
            sh_priority := priority; sh_tag := tag |}
  else None.

(** logrus_fluent.New: [None] is the connection error. *)
Definition fluent_New (E : Env) (host : string) (port : Z)
    : option FluentHook :=
  if fluent_connect E host port then
    Some {| fh_host := host; fh_port := port; fh_tag := None;
            fh_levels := fluent_defaultLevels E |}
  else None.

(** ** Computations: state, and the process may exit *)

(** Why [logrus.Fatal] was called. *)
Inductive FatalCause :=
| BadLevel (logLevel : string)
| BadPattern (key logDriver : string)
| BadPort (strPort : string)
| SyslogHookFailed
| FluentHookFailed.

Inductive Outcome (A : Type) :=
| Returns (a : A) (s : State)
| Exits (why : FatalCause) (s : State).
Arguments Returns {A} a s.
Arguments Exits {A} why s.

Definition M (A : Type) : Type := State → Outcome A.

Definition ret {A} (a : A) : M A := λ s, Returns a s.

Definition bind {A B} (m : M A) (k : A → M B) : M B :=
  λ s, match m s with
       | Returns a s' => k a s'
       | Exits why s' => Exits why s'
       end.

Notation "'do' x <- m ; k" := (bind m (λ x, k))
  (at level 10, x name, m at level 100, k at level 200).
Notation "m ;;; k" := (bind m (λ _, k))
  (at level 100, k at level 200, right associativity).

(** logrus.Fatal: log, then os.Exit(1). *)
Definition Fatal {A} (why : FatalCause) : M A := λ s, Exits why s.

Definition final_state {A} (o : Outcome A) : State :=
  match o with Returns _ s => s | Exits _ s => s end.

(** make(map[string]string) *)
Definition make_map : M loc :=
  λ s, Returns (length (maps s)) (with_maps (λ h, h ++ [∅]) s).

(** The entries of the map behind a reference. *)
Definition entries (l : loc) : M (gmap string string) :=
  λ s, Returns (deref s l) s.

(** m[k] = v, for a reference obtained from [make_map]. *)
Definition map_assign (l : loc) (k v : string) : M unit :=
  λ s, Returns tt (with_maps (alter (<[k := v]>) l) s).

Definition modify_emitter (f : Emitter → Emitter) : M unit :=
  λ s, Returns tt (with_emitter f s).

(** logrus.SetOutput / SetFormatter / SetLevel / AddHook on the standard
    logger. *)
Definition SetOutput (o : Output) : M unit :=
  modify_emitter (λ e, {| em_out := o; em_formatter := em_formatter e;
                          em_level := em_level e; em_hooks := em_hooks e |}).

Definition SetFormatter (f : TextFormatter) : M unit :=
  modify_emitter (λ e, {| em_out := em_out e; em_formatter := f;
                          em_level := em_level e; em_hooks := em_hooks e |}).

Definition SetLevel (l : Level) : M unit :=
  modify_emitter (λ e, {| em_out := em_out e; em_formatter := em_formatter e;
                          em_level := l; em_hooks := em_hooks e |}).

Definition AddHook (h : Hook) : M unit :=
  modify_emitter (λ e, {| em_out := em_out e; em_formatter := em_formatter e;
                          em_level := em_level e;
                          em_hooks := em_hooks e ++ [h] |}).

(** A [for ... range] loop whose body may [return]: the body answers
    [Some r] to return [r] from the enclosing function, [None] to go on
    with the next element. *)
Fixpoint for_range {A R} (xs : list A) (body : A → M (option R))
    : M (option R) :=
  match xs with
  | [] => ret None
  | x :: xs' =>
      do r <- body x;
      match r with
      | Some v => ret (Some v)
      | None => for_range xs' body
      end
  end.

(** ** The functions of logging.go *)

(** The two errors built with fmt.Errorf, by their arguments:
    "provided configuration value %q is not supported as a logging option
    for log driver %s" and "provided log driver %q is not a supported log
    driver".  A Go [error] result is an [option error], nil being [None]. *)
Inductive error :=
| UnsupportedOption (k logDriver : string)
| UnsupportedDriver (logger : string).

Section Logging.

Variable E : Env.

(** getLogDriverConfig returns a map containing the key-value pairs that
    start with string logDriver from map logOpts. *)
Definition getLogDriverConfig (logDriver : string) (logOpts : loc) : M loc :=
  do keysToValidate <- make_map;
  do m <- entries logOpts;
  for_range (R := Empty_set) (range E m) (λ kv,
    match MatchString E (logDriver +:+ ".*") kv.1 with
    | None => Fatal (BadPattern kv.1 logDriver)
    | Some ok =>
        if ok then map_assign keysToValidate kv.1 kv.2 ;;; ret None
        else ret None
    end) ;;;
  ret keysToValidate.

(** validateOpts iterates through all of the keys in logOpts, and errors
    out if the key in logOpts is not a key in supportedOpts. *)
Definition validateOpts (logDriver : string) (logOpts : loc)
    (supportedOpts : gmap string bool) : M (option error) :=
  do m <- entries logOpts;
  do r <- for_range (range E m) (λ kv,
    if negb (supported supportedOpts kv.1)
    then ret (Some (UnsupportedOption kv.1 logDriver))
    else ret None);
  match r with
  | Some err => ret (Some err)
  | None => ret None
  end.

(** setupSyslog sets up and configures syslog with the provided options in
    logOpts. If some options are not provided, sensible defaults are used. *)
Definition setupSyslog (logOpts : loc) (tag : string) : M unit :=
  do m <- entries logOpts;
  let logLevel := default "info" (m !! "syslog.level") in
  match ParseLevel logLevel with
  | None => Fatal (BadLevel logLevel)
  | Some level =>
      SetLevel level ;;;
      match NewSyslogHook E "" "" (syslogLevelMap_at level) tag with
      | None => Fatal SyslogHookFailed
      | Some h => AddHook (HSyslog h)
      end
  end.

(** setupFormatter sets up the text formatting for logs output by logrus. *)
Definition setupFormatter : M unit :=
  let fileFormat := new_TextFormatter in
  let fileFormat :=
    {| DisableColors := true;
       DisableTimestamp := DisableTimestamp fileFormat;
       FullTimestamp := FullTimestamp fileFormat;
       TimestampFormat := TimestampFormat fileFormat |} in
  let fileFormat :=
    if decide (Getenv E "INITSYSTEM" = "SYSTEMD") then
      {| DisableColors := DisableColors fileFormat;
         DisableTimestamp := true;
         FullTimestamp := true;
         TimestampFormat := TimestampFormat fileFormat |}
    else
      {| DisableColors := DisableColors fileFormat;
         DisableTimestamp := DisableTimestamp fileFormat;
         FullTimestamp := FullTimestamp fileFormat;
         TimestampFormat := RFC3339 |} in
  SetFormatter fileFormat.

(** setupFluentD sets up and configures FluentD with the provided options
    in logOpts. If some options are not provided, sensible defaults are
    used.  The error of SplitHostPort is overwritten by the one of Atoi
    before it is looked at; on that error the port string is empty. *)
Definition setupFluentD (logOpts : loc) : M unit :=
  do m <- entries logOpts;
  let logLevel := default "info" (m !! "fluentd.level") in
  match ParseLevel logLevel with
  | None => Fatal (BadLevel logLevel)
  | Some level =>
      let hostAndPort := default "localhost:24224" (m !! "fluentd.address") in
      let '(host, strPort) := default ("", "") (SplitHostPort E hostAndPort) in
      match Atoi E strPort with
      | None => Fatal (BadPort strPort)
      | Some port =>
          match fluent_New E host port with
          | None => Fatal FluentHookFailed
          | Some h =>
              let h := match m !! "fluentd.tag" with
                       | Some tag => SetTag tag h
                       | None => h
                       end in
              let h := SetLevels (setFireLevels level) h in
              AddHook (HFluent h)
          end
      end
  end.

(** The body of the loop over [loggers] in SetupLogging. *)
Definition setup_logger (logOpts : loc) (logger : string)
    : M (option (option error)) :=
  do valuesToValidate <- getLogDriverConfig logger logOpts;
  if decide (logger = "syslog") then ret None
  else if decide (logger = "fluentd") then
    do err <- validateOpts logger valuesToValidate fluentDOpts;
    match err with
    | Some e => ret (Some (Some e))
    | None => setupFluentD valuesToValidate ;;; ret None
    end
  else ret (Some (Some (UnsupportedDriver logger))).

(** SetupLogging sets up each logging service provided in loggers and
    configures each logger with the provided logOpts. *)
Definition SetupLogging (loggers : list string) (logOpts : loc)
    (tag : string) : M (option error) :=
  setupFormatter ;;;
  do valuesToValidate <- getLogDriverConfig "syslog" logOpts;
  do err <- validateOpts "syslog" valuesToValidate syslogOpts;
  match err with
  | Some e => ret (Some e)
  | None =>
      SetOutput Discard ;;;
      setupSyslog valuesToValidate tag ;;;
      do r <- for_range loggers (setup_logger logOpts);
      match r with
      | Some e => ret e
      | None => ret None
      end
  end.

End Logging.

(** ** A sample runtime

    Every dial and connection succeeds, [range] visits a map in the order
    of [map_to_list], the environment is empty, and the pattern compiler
    knows the patterns made of a plain name followed by [.*] and no
    others.  It is used to run the functions on concrete inputs with plain
    names. *)

(** The plain name [p] when the pattern is [p] followed by [.*]. *)
Fixpoint plain_dotstar (pattern : string) : option string :=
  match pattern with
  | EmptyString => None
  | String a rest =>
      if plain_char a then String a <$> plain_dotstar rest
      else if decide (pattern = ".*") then Some EmptyString else None
  end.

Definition sample_compiles (pattern : string) : bool :=
  bool_decide (is_Some (plain_dotstar pattern)).

Definition sample_matches (pattern k : string) : bool :=
  match plain_dotstar pattern with
  | Some p => Contains k p
  | None => false
  end.

(** Host and port around the last colon. *)
Fixpoint sample_SplitHostPort (hostport : string) : option (string * string) :=
  match hostport with
  | EmptyString => None
  | String a rest =>
      match sample_SplitHostPort rest with
      | Some (h, p) => Some (String a h, p)
      | None => if decide (a = ":"%char) then Some (EmptyString, rest) else None
      end
  end.

Definition digit (a : ascii) : option Z :=
  let n := N_of_ascii a in
  if (48 <=? n)%N && (n <=? 57)%N then Some (Z.of_N n - 48)%Z else None.

Fixpoint digits (acc : Z) (s : string) : option Z :=
  match s with
  | EmptyString => Some acc
  | String a rest =>
      match digit a with
      | Some d => digits (acc * 10 + d)%Z rest
      | None => None
      end
  end.

Definition sample_Atoi (s : string) : option Z :=
  match s with
  | EmptyString => None
  | String _ _ => digits 0%Z s
  end.

Lemma plain_dotstar_app p :
  plain_name p = true → plain_dotstar (p +:+ ".*") = Some p.
Proof.
  unfold plain_name. induction p as [|a p IH]; simpl; [done|].
  intros [Ha Hp]%andb_prop. rewrite Ha, (IH Hp). done.
Qed.

Lemma sample_regexp_plain p k :
  plain_name p = true →
  sample_compiles (p +:+ ".*") = true ∧
  sample_matches (p +:+ ".*") k = Contains k p.
Proof.
  intros Hp. unfold sample_compiles, sample_matches.
  rewrite (plain_dotstar_app p Hp). split; [|done].
  apply bool_decide_eq_true. eauto.
Qed.

Definition sample_env : Env :=
  {| Getenv := λ _, "";
     range := map_to_list;
     range_perm := λ m, reflexivity (map_to_list m);
     regexp_compiles := sample_compiles;
     regexp_matches := sample_matches;
     regexp_plain := sample_regexp_plain;
     syslog_Dial := λ _ _ _ _, true;
     SplitHostPort := sample_SplitHostPort;
     Atoi := sample_Atoi;
     Atoi_empty := eq_refl;
     fluent_connect := λ _ _, true;
     fluent_defaultLevels :=
       [PanicLevel; FatalLevel; ErrorLevel; WarnLevel; InfoLevel] |}.

(** A process that has allocated one map, holding [m], and has not set up
    logging yet. *)
Definition start (m : gmap string string) : State :=
  {| emitter := logrus_std; maps := [m] |}.


(** ** Notions the statements are written with *)

(** The state after one more map has been allocated. *)
Definition push (s : State) (x : gmap string string) : State :=
  {| emitter := emitter s; maps := maps s ++ [x] |}.

(** [s'] has every map of [s], unchanged, and possibly newer ones. *)
Definition extends (s s' : State) : Prop :=
  ∃ news, maps s' = maps s ++ news.

(** The entries the pattern built from [logDriver] finds a match in. *)
Definition captured (E : Env) (logDriver : string) (kv : string * string)
    : Prop :=
  regexp_matches E (logDriver +:+ ".*") kv.1 = true.

#[global] Instance captured_dec E logDriver kv :
  Decision (captured E logDriver kv).
Proof. unfold captured. apply _. Defined.

(** What the spec asks of the partitioner: the entries whose key starts
    with the prefix followed by a dot. *)
Definition partition_by_prefix (prefix : string) (m : gmap string string)
    : gmap string string :=
  filter (λ kv, HasPrefix kv.1 (prefix +:+ ".") = true) m.

(** The first key of the visiting order that the table does not list. *)
Definition first_unsupported (supportedOpts : gmap string bool)
    (kvs : list (string * string)) : option string :=
  fst <$> List.find (λ kv, negb (supported supportedOpts kv.1)) kvs.

Definition hooks (s : State) : list Hook := em_hooks (emitter s).

(** The emitter with more hooks at the end of its chain. *)
Definition add_hooks (hs : list Hook) (e : Emitter) : Emitter :=
  {| em_out := em_out e; em_formatter := em_formatter e;
     em_level := em_level e; em_hooks := em_hooks e ++ hs |}.

(** The hook setupFluentD builds from the options [m] once the level has
    parsed to [level], the address has split and the port has parsed. *)
Definition fluent_hook (m : gmap string string) (level : Level)
    (host : string) (port : Z) : FluentHook :=
  {| fh_host := host; fh_port := port; fh_tag := m !! "fluentd.tag";
     fh_levels := setFireLevels level |}.

(** The hook setupSyslog builds once the level has parsed to [level]. *)
Definition syslog_hook (level : Level) (tag : string) : SyslogHook :=
  {| sh_network := ""; sh_raddr := "";
     sh_priority := syslogLevelMap_at level; sh_tag := tag |}.

Definition set_level (level : Level) (e : Emitter) : Emitter :=
  {| em_out := em_out e; em_formatter := em_formatter e;
     em_level := level; em_hooks := em_hooks e |}.

Definition count_fluentd (loggers : list string) : nat :=
  length (filter (λ x, x = "fluentd") loggers).

(** The options the loop body hands to validateOpts and setupFluentD for
    the name "fluentd". *)
Definition fluentd_opts (m : gmap string string) : gmap string string :=
  filter (λ kv, Contains kv.1 "fluentd" = true) m.

Definition syslog_opts (m : gmap string string) : gmap string string :=
  filter (λ kv, Contains kv.1 "syslog" = true) m.

(** SetupLogging up to its loop; [Some e] is the early [return err]. *)
Definition always_on (E : Env) (logOpts : loc) (tag : string)
    : M (option error) :=
  setupFormatter E ;;;
  do valuesToValidate <- getLogDriverConfig E "syslog" logOpts;
  do err <- validateOpts E "syslog" valuesToValidate syslogOpts;
  match err with
  | Some e => ret (Some e)
  | None =>
      SetOutput Discard ;;;
      setupSyslog E valuesToValidate tag ;;;
      ret None
  end.

Definition set_formatter (f : TextFormatter) (e : Emitter) : Emitter :=
  {| em_out := em_out e; em_formatter := f;
     em_level := em_level e; em_hooks := em_hooks e |}.

Definition set_out (o : Output) (e : Emitter) : Emitter :=
  {| em_out := o; em_formatter := em_formatter e;
     em_level := em_level e; em_hooks := em_hooks e |}.

(** The formatter setupFormatter installs in this environment. *)
Definition chosen_formatter (E : Env) : TextFormatter :=
  em_formatter (emitter (final_state (setupFormatter E
    {| emitter := logrus_std; maps := [] |}))).

(** The emitter once the always-on part is through: output discarded,
    formatter chosen, level set, one syslog hook appended. *)
Definition always_on_emitter (E : Env) (level : Level) (tag : string)
    (e : Emitter) : Emitter :=
  {| em_out := Discard;
     em_formatter := chosen_formatter E;
     em_level := level;
     em_hooks := em_hooks e ++ [HSyslog (syslog_hook level tag)] |}.

Definition count_hooks (p : Hook → bool) (hs : list Hook) : nat :=
  length (List.filter p hs).

(** What setupFluentD comes to for the options [m]: the cause it ends the
    process with, or the hook it adds. *)
Definition fluentd_attempt (E : Env) (m : gmap string string)
    : FatalCause + FluentHook :=
  let logLevel := default "info" (m !! "fluentd.level") in
  match ParseLevel logLevel with
  | None => inl (BadLevel logLevel)
  | Some level =>
      let hostAndPort := default "localhost:24224" (m !! "fluentd.address") in
      let '(host, strPort) := default ("", "") (SplitHostPort E hostAndPort) in
      match Atoi E strPort with
      | None => inl (BadPort strPort)
      | Some port =>
          if fluent_connect E host port
          then inr (fluent_hook m level host port)
          else inl FluentHookFailed
      end
  end.

(** How a computation ended, without the state it ended in. *)
Definition verdict {A} (o : Outcome A) : A + FatalCause :=
  match o with
  | Returns a _ => inl a
  | Exits why _ => inr why
  end.

(** The four option keys the tables of syslog and fluentd list. *)
Definition documented_key (k : string) : Prop :=
  k = "syslog.level" ∨ k = "fluentd.address" ∨ k = "fluentd.tag" ∨
  k = "fluentd.level".

(** The fluentd hooks a call adds when it gets past [n] occurrences of
    "fluentd": [n] copies of the one hook the options [m] lead to. *)
Definition fluentd_hooks (E : Env) (m : gmap string string) (n : nat)
    : list Hook :=
  match fluentd_attempt E (fluentd_opts m) with
  | inr h => replicate n (HFluent h)
  | inl _ => []
  end.

(** * Properties *)

(** ** The store *)

Lemma deref_push s x (l : loc) :
  deref (push s x) l = if decide (l = length (maps s)) then x else deref s l.
Proof.
  unfold deref, push; simpl. case_decide as Hl.
  - subst l. rewrite lookup_app_r by lia. by rewrite Nat.sub_diag.
  - destruct (decide (l < length (maps s))) as [Hlt|Hge].
    + by rewrite lookup_app_l.
    + rewrite !lookup_ge_None_2; [done|lia|]. rewrite length_app; simpl; lia.
Qed.

Lemma deref_push_new s x : deref (push s x) (length (maps s)) = x.
Proof. rewrite deref_push. by case_decide. Qed.

Lemma deref_dangling s (l : loc) :
  (length (maps s) ≤ l)%nat → deref s l = ∅.
Proof. intros Hl. unfold deref. by rewrite lookup_ge_None_2. Qed.

Lemma map_assign_push s acc k v :
  map_assign (length (maps s)) k v (push s acc)
  = Returns tt (push s (<[k := v]> acc)).
Proof.
  unfold map_assign, with_maps, push; simpl. do 2 f_equal.
  rewrite alter_app_r_alt by lia. by rewrite Nat.sub_diag.
Qed.

Lemma extends_refl s : extends s s.
Proof. exists []. by rewrite app_nil_r. Qed.

Lemma extends_trans s1 s2 s3 : extends s1 s2 → extends s2 s3 → extends s1 s3.
Proof.
  intros [n1 H1] [n2 H2]. exists (n1 ++ n2). by rewrite H2, H1, <-app_assoc.
Qed.

Lemma extends_push s x : extends s (push s x).
Proof. by exists [x]. Qed.

Lemma extends_lookup s s' (l : loc) :
  extends s s' → l < length (maps s) → maps s' !! l = maps s !! l.
Proof. intros [news ->] Hl. by rewrite lookup_app_l. Qed.

(** ** Loops *)

Lemma for_range_app {A R} (xs ys : list A) (body : A → M (option R)) s :
  for_range (xs ++ ys) body s =
  match for_range xs body s with
  | Returns None s1 => for_range ys body s1
  | o => o
  end.
Proof.
  revert s. induction xs as [|x xs IH]; intros s; simpl; [done|].
  unfold bind. destruct (body x s) as [[r|] s1|why s1]; simpl; auto.
Qed.

(** ** getLogDriverConfig *)

Section Partition.

Variable E : Env.
Variable logDriver : string.

Let body (keysToValidate : loc) (kv : string * string)
    : M (option Empty_set) :=
  match MatchString E (logDriver +:+ ".*") kv.1 with
  | None => Fatal (BadPattern kv.1 logDriver)
  | Some ok =>
      if ok then map_assign keysToValidate kv.1 kv.2 ;;; ret None
      else ret None
  end.

Lemma partition_loop kvs s acc :
  regexp_compiles E (logDriver +:+ ".*") = true →
  NoDup (kvs.*1) →
  for_range kvs (body (length (maps s))) (push s acc)
  = Returns None
      (push s (list_to_map (filter (captured E logDriver) kvs) ∪ acc)).
Proof.
  intros Hc. revert acc. induction kvs as [|[k v] kvs IH]; intros acc Hnd.
  - simpl. unfold ret. by rewrite (left_id_L ∅ (∪)).
  - rewrite fmap_cons in Hnd. apply NoDup_cons in Hnd as [Hk Hnd].
    cbn [for_range].
    unfold bind at 1, body at 1, MatchString. rewrite Hc. cbn [fst snd].
    rewrite filter_cons.
    destruct (regexp_matches E (logDriver +:+ ".*") k) eqn:Hm.
    + unfold bind at 1. rewrite map_assign_push. unfold ret at 1.
      rewrite IH by done. rewrite decide_True by exact Hm.
      rewrite list_to_map_cons. do 2 f_equal.
      rewrite <-insert_union_l. symmetry. apply insert_union_r.
      apply not_elem_of_list_to_map_1. intros Hin. apply Hk.
      apply list_elem_of_fmap in Hin as (kv & -> & Hkv).
      apply list_elem_of_filter in Hkv as [_ Hkv].
      apply list_elem_of_fmap. by exists kv.
    + unfold ret at 1. rewrite IH by done.
      rewrite decide_False; [done|]. unfold captured; simpl. by rewrite Hm.
Qed.

(** Without a compiled pattern the first entry visited ends the process,
    before anything is stored. *)
Lemma partition_loop_fatal kv kvs s acc :
  regexp_compiles E (logDriver +:+ ".*") = false →
  for_range (kv :: kvs) (body (length (maps s))) (push s acc)
  = Exits (BadPattern kv.1 logDriver) (push s acc).
Proof.
  intros Hc. cbn [for_range]. unfold bind, body, MatchString. by rewrite Hc.
Qed.

(** getLogDriverConfig allocates one map and fills it with the captured
    entries of [logOpts]; it ends the process when the pattern does not
    compile and there is an entry to try it on. *)
Lemma getLogDriverConfig_returns (logOpts : loc) s :
  deref s logOpts = ∅ ∨ regexp_compiles E (logDriver +:+ ".*") = true →
  getLogDriverConfig E logDriver logOpts s
  = Returns (length (maps s))
      (push s (filter (captured E logDriver) (deref s logOpts))).
Proof.
  intros Hok. unfold getLogDriverConfig, bind at 1, make_map.
  change (with_maps _ s) with (push s ∅).
  unfold bind at 1, entries.
  assert (deref (push s ∅) logOpts = deref s logOpts) as ->.
  { rewrite deref_push. case_decide; [|done]. subst.
    by rewrite deref_dangling. }
  unfold bind.
  change (for_range _ _ (push s ∅)) with
    (for_range (range E (deref s logOpts)) (body (length (maps s)))
       (push s ∅)).
  destruct (regexp_compiles E (logDriver +:+ ".*")) eqn:Hc.
  - rewrite partition_loop; [|done|].
    + unfold ret. do 2 f_equal. rewrite (right_id_L ∅ (∪)).
      rewrite map_filter_alt. symmetry. apply list_to_map_proper.
      * eapply NoDup_fmap_fst; [|eapply NoDup_filter, NoDup_map_to_list].
        intros k v1 v2 [_ H1]%list_elem_of_filter [_ H2]%list_elem_of_filter.
        apply elem_of_map_to_list in H1, H2. congruence.
      * by rewrite (range_perm E).
    + rewrite (range_perm E). apply NoDup_fst_map_to_list.
  - destruct Hok as [Hem|]; [|done]. rewrite Hem.
    assert (range E ∅ = []) as ->.
    { apply Permutation_nil_r. by rewrite (range_perm E), map_to_list_empty. }
    simpl. unfold ret. by rewrite map_filter_empty.
Qed.

Lemma getLogDriverConfig_exits (logOpts : loc) s :
  deref s logOpts ≠ ∅ → regexp_compiles E (logDriver +:+ ".*") = false →
  ∃ k, is_Some (deref s logOpts !! k) ∧
    getLogDriverConfig E logDriver logOpts s
    = Exits (BadPattern k logDriver) (push s ∅).
Proof.
  intros Hne Hc. unfold getLogDriverConfig, bind at 1, make_map.
  change (with_maps _ s) with (push s ∅).
  unfold bind at 1, entries.
  assert (deref (push s ∅) logOpts = deref s logOpts) as ->.
  { rewrite deref_push. case_decide; [|done]. subst.
    by rewrite deref_dangling. }
  unfold bind.
  change (for_range _ _ (push s ∅)) with
    (for_range (range E (deref s logOpts)) (body (length (maps s)))
       (push s ∅)).
  destruct (range E (deref s logOpts)) as [|kv kvs] eqn:Hr.
  - destruct Hne. apply map_to_list_empty_iff, Permutation_nil_r.
    by rewrite <-(range_perm E), Hr.
  - rewrite partition_loop_fatal by done. exists kv.1. split; [|done].
    exists kv.2. apply elem_of_map_to_list. rewrite <-(range_perm E), Hr.
    destruct kv. left.
Qed.

End Partition.

Lemma getLogDriverConfig_cases E logDriver (logOpts : loc) s :
  getLogDriverConfig E logDriver logOpts s
  = Returns (length (maps s))
      (push s (filter (captured E logDriver) (deref s logOpts)))
  ∨ (deref s logOpts ≠ ∅ ∧
     regexp_compiles E (logDriver +:+ ".*") = false ∧
     ∃ k, getLogDriverConfig E logDriver logOpts s
          = Exits (BadPattern k logDriver) (push s ∅)).
Proof.
  destruct (decide (deref s logOpts = ∅)) as [Hem|Hne].
  { left. apply getLogDriverConfig_returns. by left. }
  destruct (regexp_compiles E (logDriver +:+ ".*")) eqn:Hc.
  { left. apply getLogDriverConfig_returns. by right. }
  right. split; [done|]. split; [done|].
  destruct (getLogDriverConfig_exits E logDriver logOpts s Hne Hc)
    as (k & _ & Hk).
  eauto.
Qed.

(** A call never changes what its own argument refers to, whether or not
    that reference holds a map. *)
Lemma deref_push_filter s (l : loc) (P : string * string → Prop)
    `{!∀ kv, Decision (P kv)} :
  deref (push s (filter P (deref s l))) l = deref s l.
Proof.
  rewrite deref_push. case_decide; [|done]. subst.
  rewrite deref_dangling by done. apply map_filter_empty.
Qed.

Lemma deref_push_empty s (l : loc) : deref (push s ∅) l = deref s l.
Proof.
  rewrite deref_push. case_decide; [|done]. subst. by rewrite deref_dangling.
Qed.

(** With a plain name the pattern matches exactly the keys that contain
    the name somewhere. *)
Lemma captured_plain E logDriver kv :
  plain_name logDriver = true →
  captured E logDriver kv ↔ Contains kv.1 logDriver = true.
Proof.
  intros Hp. unfold captured.
  by destruct (regexp_plain E logDriver kv.1 Hp) as [_ ->].
Qed.

Lemma getLogDriverConfig_plain E logDriver (logOpts : loc) s :
  plain_name logDriver = true →
  getLogDriverConfig E logDriver logOpts s
  = Returns (length (maps s))
      (push s (filter (λ kv, Contains kv.1 logDriver = true)
                 (deref s logOpts))).
Proof.
  intros Hp. rewrite getLogDriverConfig_returns.
  - do 2 f_equal. apply map_filter_ext. intros k v _.
    apply (captured_plain E logDriver (k, v) Hp).
  - right. by destruct (regexp_plain E logDriver "" Hp).
Qed.

(** ** validateOpts *)

Lemma validate_loop logDriver supportedOpts kvs s :
  for_range kvs (λ kv : string * string,
    if negb (supported supportedOpts kv.1)
    then ret (Some (UnsupportedOption kv.1 logDriver))
    else ret None) s
  = Returns ((λ k, UnsupportedOption k logDriver)
               <$> first_unsupported supportedOpts kvs) s.
Proof.
  unfold first_unsupported.
  induction kvs as [|kv kvs IH]; simpl; [done|].
  unfold bind. destruct (negb (supported supportedOpts kv.1)); simpl; [done|].
  unfold ret at 1. apply IH.
Qed.

Lemma validateOpts_eq E logDriver (logOpts : loc) supportedOpts s :
  validateOpts E logDriver logOpts supportedOpts s
  = Returns ((λ k, UnsupportedOption k logDriver)
               <$> first_unsupported supportedOpts
                     (range E (deref s logOpts))) s.
Proof.
  unfold validateOpts, bind at 1, entries. unfold bind.
  rewrite validate_loop. by destruct (first_unsupported _ _).
Qed.

Lemma first_unsupported_Some E supportedOpts m k :
  first_unsupported supportedOpts (range E m) = Some k →
  is_Some (m !! k) ∧ supported supportedOpts k = false.
Proof.
  unfold first_unsupported. intros Hf.
  destruct (List.find _ _) as [[k' v]|] eqn:Hfind; [|done].
  simpl in Hf. injection Hf as ->.
  apply find_some in Hfind as [Hin Hneg]. simpl in Hneg. split.
  - exists v. apply elem_of_map_to_list. rewrite <-(range_perm E).
    by apply list_elem_of_In.
  - by apply negb_true_iff.
Qed.

Lemma first_unsupported_None E supportedOpts m :
  first_unsupported supportedOpts (range E m) = None ↔
  ∀ k, is_Some (m !! k) → supported supportedOpts k = true.
Proof.
  unfold first_unsupported. split.
  - intros Hf k [v Hk].
    destruct (List.find _ _) as [?|] eqn:Hfind; [done|].
    apply elem_of_map_to_list in Hk. rewrite <-(range_perm E) in Hk.
    apply list_elem_of_In in Hk.
    pose proof (find_none _ _ Hfind _ Hk) as Hneg. simpl in Hneg.
    by apply negb_false_iff.
  - intros Hall. destruct (List.find _ _) as [[k v]|] eqn:Hfind; [|done].
    apply find_some in Hfind as [Hin Hneg]. simpl in Hneg.
    apply list_elem_of_In in Hin. rewrite (range_perm E) in Hin.
    apply elem_of_map_to_list in Hin.
    rewrite Hall in Hneg by eauto. done.
Qed.

Lemma first_unsupported_is_Some E supportedOpts (m : gmap string string) k :
  is_Some (m !! k) → supported supportedOpts k = false →
  ∃ k', first_unsupported supportedOpts (range E m) = Some k'.
Proof.
  intros Hk Hs.
  destruct (first_unsupported supportedOpts (range E m)) as [k'|] eqn:Hf;
    [eauto|].
  rewrite (proj1 (first_unsupported_None E supportedOpts m) Hf k Hk) in Hs.
  done.
Qed.

(** ** Installers *)

Lemma add_hooks_nil e : add_hooks [] e = e.
Proof. destruct e. unfold add_hooks; simpl. by rewrite app_nil_r. Qed.

Lemma add_hooks_app hs1 hs2 e :
  add_hooks hs2 (add_hooks hs1 e) = add_hooks (hs1 ++ hs2) e.
Proof. unfold add_hooks; simpl. by rewrite app_assoc. Qed.

Lemma setupFluentD_outcome E (logOpts : loc) s :
  let m := deref s logOpts in
  let logLevel := default "info" (m !! "fluentd.level") in
  match setupFluentD E logOpts s with
  | Returns _ s' =>
      ∃ level host port,
        ParseLevel logLevel = Some level ∧
        s' = with_emitter (add_hooks [HFluent (fluent_hook m level host port)]) s
  | Exits why s' =>
      s' = s ∧
      (ParseLevel logLevel = None → why = BadLevel logLevel)
  end.
Proof.
  intros m logLevel. unfold setupFluentD, bind, entries. fold m. fold logLevel.
  destruct (ParseLevel logLevel) as [level|]; [|by split].
  destruct (default _ (SplitHostPort E _)) as [host strPort].
  destruct (Atoi E strPort) as [port|]; [|by split].
  unfold fluent_New. destruct (fluent_connect E host port); [|by split].
  exists level, host, port. split; [done|].
  unfold AddHook, modify_emitter, with_emitter, add_hooks, fluent_hook.
  simpl. by destruct (m !! "fluentd.tag").
Qed.

(** ** The loop over the requested loggers *)

Lemma plain_syslog : plain_name "syslog" = true.
Proof. reflexivity. Qed.

Lemma plain_fluentd : plain_name "fluentd" = true.
Proof. reflexivity. Qed.

(** The name "syslog" is passed over: the body goes on to the next name
    with the emitter as it was. *)
Lemma setup_logger_syslog E (logOpts : loc) s :
  setup_logger E logOpts "syslog" s
  = Returns None (push s (syslog_opts (deref s logOpts))).
Proof.
  unfold setup_logger, bind.
  by rewrite (getLogDriverConfig_plain E "syslog" logOpts s plain_syslog).
Qed.

Lemma setup_logger_fluentd E (logOpts : loc) s :
  let sub := fluentd_opts (deref s logOpts) in
  setup_logger E logOpts "fluentd" s =
  match first_unsupported fluentDOpts (range E sub) with
  | Some k => Returns (Some (Some (UnsupportedOption k "fluentd"))) (push s sub)
  | None =>
      match setupFluentD E (length (maps s)) (push s sub) with
      | Returns _ s' => Returns None s'
      | Exits why s' => Exits why s'
      end
  end.
Proof.
  intros sub. unfold setup_logger, bind.
  rewrite (getLogDriverConfig_plain E "fluentd" logOpts s plain_fluentd).
  fold (fluentd_opts (deref s logOpts)). fold sub.
  rewrite decide_False by done. rewrite decide_True by done.
  rewrite validateOpts_eq, deref_push_new.
  by destruct (first_unsupported fluentDOpts (range E sub)).
Qed.

(** Any other name: the options are partitioned for it first, which can
    end the process; otherwise the call returns the error for the name. *)
Lemma setup_logger_other E (logOpts : loc) logger s :
  logger ≠ "syslog" → logger ≠ "fluentd" →
  setup_logger E logOpts logger s =
  match getLogDriverConfig E logger logOpts s with
  | Returns _ s' => Returns (Some (Some (UnsupportedDriver logger))) s'
  | Exits why s' => Exits why s'
  end.
Proof.
  intros H1 H2. unfold setup_logger, bind.
  destruct (getLogDriverConfig E logger logOpts s); [|done].
  by rewrite !decide_False.
Qed.

(** What one pass of the body can do: it keeps the caller's options and
    every older map, and it either leaves the emitter alone or appends one
    fluentd hook. *)
Lemma setup_logger_summary E (logOpts : loc) logger s :
  let o := setup_logger E logOpts logger s in
  deref (final_state o) logOpts = deref s logOpts ∧
  extends s (final_state o) ∧
  match o with
  | Returns None s' =>
      (logger = "syslog" ∧ emitter s' = emitter s) ∨
      (logger = "fluentd" ∧
       ∃ h, emitter s' = add_hooks [HFluent h] (emitter s))
  | Returns (Some r) s' =>
      emitter s' = emitter s ∧
      ((logger = "fluentd" ∧ ∃ k, r = Some (UnsupportedOption k "fluentd")) ∨
       (logger ≠ "syslog" ∧ logger ≠ "fluentd" ∧
        r = Some (UnsupportedDriver logger)))
  | Exits why s' => emitter s' = emitter s ∧ logger ≠ "syslog"
  end.
Proof.
  intros o. subst o.
  destruct (decide (logger = "syslog")) as [->|Hs].
  { rewrite setup_logger_syslog. simpl.
    split; [apply deref_push_filter|]. split; [apply extends_push|].
    left. by split. }
  destruct (decide (logger = "fluentd")) as [->|Hf].
  { rewrite setup_logger_fluentd.
    set (sub := fluentd_opts (deref s logOpts)).
    destruct (first_unsupported fluentDOpts (range E sub)) as [k|].
    { simpl. split; [apply deref_push_filter|]. split; [apply extends_push|].
      split; [done|]. left. eauto. }
    pose proof (setupFluentD_outcome E (length (maps s)) (push s sub)) as Ho.
    simpl in Ho.
    destruct (setupFluentD E (length (maps s)) (push s sub)) as [[] s'|why s'].
    - destruct Ho as (level & host & port & _ & ->). simpl.
      split; [apply deref_push_filter|]. split; [apply extends_push|].
      right. eauto.
    - destruct Ho as [-> _]. simpl.
      split; [apply deref_push_filter|]. split; [apply extends_push|]. done. }
  rewrite setup_logger_other by done.
  destruct (getLogDriverConfig_cases E logger logOpts s)
    as [->|(_ & _ & k & ->)]; simpl.
  - split; [apply deref_push_filter|]. split; [apply extends_push|].
    split; [done|]. right. done.
  - split; [apply deref_push_empty|]. split; [apply extends_push|]. done.
Qed.

(** The whole loop: it appends fluentd hooks only, one for each "fluentd"
    it gets past, and touches nothing else of the emitter. *)
Lemma logger_loop_summary E (logOpts : loc) loggers s :
  let o := for_range loggers (setup_logger E logOpts) s in
  deref (final_state o) logOpts = deref s logOpts ∧
  extends s (final_state o) ∧
  (∀ s', o ≠ Returns (Some None) s') ∧
  ∃ hs : list FluentHook,
    emitter (final_state o) = add_hooks (HFluent <$> hs) (emitter s) ∧
    (length hs ≤ count_fluentd loggers)%nat ∧
    (∀ s', o = Returns None s' → length hs = count_fluentd loggers).
Proof.
  revert s. induction loggers as [|logger loggers IH]; intros s.
  { simpl. split; [done|]. split; [apply extends_refl|]. split; [done|].
    exists []. by rewrite add_hooks_nil. }
  cbn zeta. cbn [for_range]. unfold bind.
  pose proof (setup_logger_summary E logOpts logger s) as Hb. cbn zeta in Hb.
  unfold count_fluentd. rewrite filter_cons. fold (count_fluentd loggers).
  destruct (setup_logger E logOpts logger s) as [[r|] s1|why s1];
    simpl in Hb; destruct Hb as (Hd & Hx & Hb).
  - simpl. split; [done|]. split; [done|].
    split. { intros s' [= -> _]. by destruct Hb as [_ [[_ [? ?]]|(_ & _ & ?)]]. }
    exists []. destruct Hb as [-> _]. rewrite add_hooks_nil.
    split; [done|]. split; [simpl; lia|]. done.
  - specialize (IH s1). cbn zeta in IH.
    destruct IH as (Hd' & Hx' & Hnn & hs & Hem & Hle & Hall).
    split; [by rewrite Hd'|]. split; [by eapply extends_trans|].
    split; [done|].
    destruct Hb as [[-> Hb]|[-> [h Hb]]].
    + exists hs. rewrite Hem, Hb. rewrite decide_False by done. done.
    + exists (h :: hs). rewrite Hem, Hb, add_hooks_app.
      rewrite decide_True by done. simpl.
      unfold count_fluentd in *.
      split; [done|]. split; [lia|]. intros s' Hs'. by rewrite (Hall s' Hs').
  - simpl. split; [done|]. split; [done|]. split; [done|]. exists [].
    destruct Hb as [-> _]. rewrite add_hooks_nil.
    split; [done|]. split; [simpl; lia|]. done.
Qed.

(** ** The always-on part of SetupLogging *)

Lemma SetupLogging_split E loggers (logOpts : loc) tag s :
  SetupLogging E loggers logOpts tag s =
  match always_on E logOpts tag s with
  | Returns None s0 =>
      match for_range loggers (setup_logger E logOpts) s0 with
      | Returns (Some e) s' => Returns e s'
      | Returns None s' => Returns None s'
      | Exits why s' => Exits why s'
      end
  | Returns (Some e) s0 => Returns (Some e) s0
  | Exits why s0 => Exits why s0
  end.
Proof.
  unfold SetupLogging, always_on, bind.
  destruct (setupFormatter E s) as [[] s1|]; [|done].
  destruct (getLogDriverConfig E "syslog" logOpts s1) as [v s2|]; [|done].
  destruct (validateOpts E "syslog" v syslogOpts s2) as [[e|] s3|]; [done| |done].
  destruct (SetOutput Discard s3) as [[] s4|]; [|done].
  destruct (setupSyslog E v tag s4) as [[] s5|]; [|done].
  unfold ret.
  by destruct (for_range loggers (setup_logger E logOpts) s5) as [[?|] ?|].
Qed.

Lemma setupFormatter_eq E s :
  setupFormatter E s
  = Returns tt (with_emitter (set_formatter (chosen_formatter E)) s).
Proof. reflexivity. Qed.

Lemma syslog_opts_level m :
  syslog_opts m !! "syslog.level" = m !! "syslog.level".
Proof.
  unfold syslog_opts. apply option_eq. intros v.
  rewrite map_lookup_filter_Some. simpl. split; [by intros [? _]|done].
Qed.

Lemma always_on_eq E (logOpts : loc) tag s :
  let m := deref s logOpts in
  let sub := syslog_opts m in
  let logLevel := default "info" (m !! "syslog.level") in
  let s2 := push (with_emitter (set_formatter (chosen_formatter E)) s) sub in
  always_on E logOpts tag s =
  match first_unsupported syslogOpts (range E sub) with
  | Some k => Returns (Some (UnsupportedOption k "syslog")) s2
  | None =>
      match ParseLevel logLevel with
      | None => Exits (BadLevel logLevel) (with_emitter (set_out Discard) s2)
      | Some level =>
          if syslog_Dial E "" "" (syslogLevelMap_at level) tag then
            Returns None
              (with_emitter (λ e, add_hooks [HSyslog (syslog_hook level tag)]
                                    (set_level level (set_out Discard e))) s2)
          else
            Exits SyslogHookFailed
              (with_emitter (λ e, set_level level (set_out Discard e)) s2)
      end
  end.
Proof.
  intros m sub logLevel s2. unfold always_on, bind at 1.
  rewrite setupFormatter_eq.
  set (s1 := with_emitter (set_formatter (chosen_formatter E)) s) in *.
  unfold bind at 1.
  rewrite (getLogDriverConfig_plain E "syslog" logOpts s1 plain_syslog).
  change (deref s1 logOpts) with m. fold (syslog_opts m). fold sub.
  subst s2. fold s1.
  unfold bind at 1. rewrite validateOpts_eq, (deref_push_new s1 sub).
  destruct (first_unsupported syslogOpts (range E sub)) as [k|]; [done|].
  cbn [fmap option_fmap option_map].
  unfold bind, SetOutput, modify_emitter.
  fold (set_out Discard).
  unfold setupSyslog, bind, entries, SetLevel, modify_emitter, NewSyslogHook.
  change (deref (with_emitter (set_out Discard) (push s1 sub))
            (length (maps s1)))
    with (deref (push s1 sub) (length (maps s1))).
  rewrite (deref_push_new s1 sub). subst sub. rewrite syslog_opts_level.
  fold logLevel. destruct (ParseLevel logLevel) as [level|]; [|done].
  by destruct (syslog_Dial E "" "" (syslogLevelMap_at level) tag).
Qed.

Lemma always_on_outcome E (logOpts : loc) tag s :
  let m := deref s logOpts in
  let logLevel := default "info" (m !! "syslog.level") in
  let o := always_on E logOpts tag s in
  deref (final_state o) logOpts = m ∧
  extends s (final_state o) ∧
  match o with
  | Returns None s0 =>
      first_unsupported syslogOpts (range E (syslog_opts m)) = None ∧
      ∃ level, ParseLevel logLevel = Some level ∧
        syslog_Dial E "" "" (syslogLevelMap_at level) tag = true ∧
        emitter s0 = always_on_emitter E level tag (emitter s)
  | Returns (Some e) s0 =>
      hooks s0 = hooks s ∧
      ∃ k, first_unsupported syslogOpts (range E (syslog_opts m)) = Some k ∧
           e = UnsupportedOption k "syslog"
  | Exits why s0 =>
      hooks s0 = hooks s ∧
      first_unsupported syslogOpts (range E (syslog_opts m)) = None ∧
      match ParseLevel logLevel with
      | None => why = BadLevel logLevel
      | Some level =>
          why = SyslogHookFailed ∧
          syslog_Dial E "" "" (syslogLevelMap_at level) tag = false
      end
  end.
Proof.
  intros m logLevel o. subst o. rewrite always_on_eq. fold m. fold logLevel.
  set (s1 := with_emitter (set_formatter (chosen_formatter E)) s).
  assert (∀ f, deref (with_emitter f (push s1 (syslog_opts m))) logOpts = m)
    as Hd.
  { intros f. change (deref (push s (syslog_opts m)) logOpts = m).
    apply deref_push_filter. }
  assert (∀ f, extends s (with_emitter f (push s1 (syslog_opts m)))) as Hx.
  { intros f. by exists [syslog_opts m]. }
  destruct (first_unsupported syslogOpts (range E (syslog_opts m))) as [k|].
  { split; [apply (Hd id)|]. split; [apply (Hx id)|]. split; [done|]. eauto. }
  destruct (ParseLevel logLevel) as [level|].
  - destruct (syslog_Dial E "" "" (syslogLevelMap_at level) tag) eqn:Hdial.
    + split; [apply Hd|]. split; [apply Hx|]. split; [done|].
      exists level. by repeat split.
    + split; [apply Hd|]. split; [apply Hx|]. done.
  - split; [apply Hd|]. split; [apply Hx|]. done.
Qed.

(** ** setFireLevels *)

Lemma defined_level_cases (L : Level) :
  defined_level L →
  L = PanicLevel ∨ L = FatalLevel ∨ L = ErrorLevel ∨
  L = WarnLevel ∨ L = InfoLevel ∨ L = DebugLevel.
Proof.
  unfold defined_level, PanicLevel, FatalLevel, ErrorLevel, WarnLevel,
    InfoLevel, DebugLevel. lia.
Qed.

Ltac each_level H :=
  destruct (defined_level_cases _ H) as [->|[->|[->|[->|[->| ->]]]]].

Lemma ParseLevel_defined lvl level :
  ParseLevel lvl = Some level → defined_level level.
Proof.
  unfold ParseLevel. repeat case_decide; intros [= <-]; by vm_compute.
Qed.

(** The enumeration is the at-or-above part of the full list. *)
Lemma setFireLevels_at_or_above (L : Level) :
  defined_level L →
  setFireLevels L = filter (λ x, at_or_above x L = true) AllLevels.
Proof. intros H. each_level H; reflexivity. Qed.

Lemma setFireLevels_undefined (L : Level) :
  ¬ defined_level L → setFireLevels L = [].
Proof.
  unfold defined_level, setFireLevels, PanicLevel, FatalLevel, ErrorLevel,
    WarnLevel, InfoLevel, DebugLevel.
  intros H. repeat case_decide; try done; lia.
Qed.

(** C10: for each of the six levels setFireLevels is a non-empty prefix of
    the descending enumeration Panic, Fatal, Error, Warn, Info, Debug; a
    level at least as severe as another has its enumeration as a prefix,
    hence a subset, of the other's; and the nil result of the default
    branch is returned for no defined level (and for every other value). *)
Theorem setFireLevels_prefix_chain (L1 L2 : Level) :
  defined_level L2 → (L1 <= L2)%N →
  setFireLevels L1 ≠ [] ∧
  setFireLevels L1 `prefix_of` AllLevels ∧
  setFireLevels L1 `prefix_of` setFireLevels L2 ∧
  setFireLevels L1 ⊆ setFireLevels L2 ∧
  (∀ L, setFireLevels L = [] ↔ ¬ defined_level L).
Proof.
  intros H2 Hle.
  assert (defined_level L1) as H1 by (unfold defined_level in *; lia).
  assert (setFireLevels L1 `prefix_of` setFireLevels L2) as Hpre.
  { each_level H1; each_level H2;
      try (exfalso; revert Hle; by vm_compute);
      apply (bool_decide_unpack _); by vm_compute. }
  split; [each_level H1; by vm_compute|].
  split; [each_level H1; apply (bool_decide_unpack _); by vm_compute|].
  split; [done|].
  split.
  { destruct Hpre as [k ->]. intros x Hx. apply elem_of_app. by left. }
  intros L. split; [|apply setFireLevels_undefined].
  intros Hnil Hdef. each_level Hdef; by vm_compute in Hnil.
Qed.

Lemma setFireLevels_prefix_chain_witness :
  setFireLevels ErrorLevel ≠ [] ∧
  setFireLevels ErrorLevel `prefix_of` AllLevels ∧
  setFireLevels ErrorLevel `prefix_of` setFireLevels InfoLevel ∧
  setFireLevels ErrorLevel ⊆ setFireLevels InfoLevel ∧
  (∀ L, setFireLevels L = [] ↔ ¬ defined_level L).
Proof.
  apply (setFireLevels_prefix_chain ErrorLevel InfoLevel).
  - unfold defined_level. vm_compute. discriminate.
  - vm_compute. discriminate.
Defined.

(** C7: for each level setFireLevels lists the levels at or above it,
    highest severity first (for Warn: Panic, Fatal, Error, Warn), and the
    hook setupFluentD adds carries that list for the level it was
    configured with, not a single threshold. *)
Theorem fluentd_hook_fires_on_enumeration E (logOpts : loc) s s' (L : Level) :
  defined_level L →
  setupFluentD E logOpts s = Returns tt s' →
  setFireLevels L = filter (λ x, at_or_above x L = true) AllLevels ∧
  setFireLevels WarnLevel = [PanicLevel; FatalLevel; ErrorLevel; WarnLevel] ∧
  ∃ level h,
    ParseLevel (default "info" (deref s logOpts !! "fluentd.level"))
      = Some level ∧
    hooks s' = hooks s ++ [HFluent h] ∧
    fh_levels h = setFireLevels level ∧
    fh_levels h = filter (λ x, at_or_above x level = true) AllLevels.
Proof.
  intros HL Hrun. split; [by apply setFireLevels_at_or_above|].
  split; [done|].
  pose proof (setupFluentD_outcome E logOpts s) as Ho. cbn zeta in Ho.
  rewrite Hrun in Ho. destruct Ho as (level & host & port & Hlvl & ->).
  exists level, (fluent_hook (deref s logOpts) level host port).
  split; [done|]. split; [done|]. split; [done|].
  apply setFireLevels_at_or_above. by eapply ParseLevel_defined.
Qed.

Lemma fluentd_hook_fires_on_enumeration_witness :
  let m : gmap string string := <["fluentd.level" := "warn"]> ∅ in
  let s' := final_state (setupFluentD sample_env 0 (start m)) in
  ∃ h, hooks s' = [HFluent h] ∧
       fh_levels h = [PanicLevel; FatalLevel; ErrorLevel; WarnLevel].
Proof.
  intros m s'.
  destruct (fluentd_hook_fires_on_enumeration sample_env 0 (start m) s'
              WarnLevel) as (_ & HW & level & h & Hlvl & Hh & Hf & _).
  - unfold defined_level. vm_compute. discriminate.
  - vm_compute. reflexivity.
  - exists h. split; [exact Hh|]. rewrite Hf.
    vm_compute in Hlvl. injection Hlvl as <-. exact HW.
Defined.

(** ** getLogDriverConfig against the prefix rule *)

(** C1, at the input where the code and the prefix rule part ways: with
    the name "remote", getLogDriverConfig keeps the keys "xremote.level"
    and "remoteextra.level", neither of which starts with "remote.", so
    its result is the whole map where the prefix rule gives the empty
    one.  Seen from SetupLogging: the single option "xsyslog.level" is
    handed to the syslog validation and the call returns its error, where
    under the prefix rule the key belongs to no sink. *)
Theorem getLogDriverConfig_keeps_substring_keys E :
  let m : gmap string string :=
    <["xremote.level" := "info"]> (<["remoteextra.level" := "debug"]> ∅) in
  let m' : gmap string string := <["xsyslog.level" := "debug"]> ∅ in
  getLogDriverConfig E "remote" 0 (start m) = Returns 1 (push (start m) m) ∧
  partition_by_prefix "remote" m = ∅ ∧
  m ≠ partition_by_prefix "remote" m ∧
  partition_by_prefix "syslog" m' = ∅ ∧
  ∃ s', SetupLogging E [] 0 "tag" (start m')
        = Returns (Some (UnsupportedOption "xsyslog.level" "syslog")) s'.
Proof.
  intros m m'. split; [|split; [|split; [|split]]].
  - rewrite getLogDriverConfig_plain by reflexivity.
    change (deref (start m) 0) with m. simpl length.
    do 2 f_equal; by vm_compute.
  - by vm_compute.
  - by vm_compute.
  - by vm_compute.
  - rewrite SetupLogging_split, always_on_eq.
    change (deref (start m') 0) with m'.
    assert (syslog_opts m' = m') as -> by (by vm_compute).
    destruct (first_unsupported_is_Some E syslogOpts m' "xsyslog.level")
      as [k Hk]; [vm_compute; eauto|by vm_compute|].
    rewrite Hk.
    destruct (first_unsupported_Some E syslogOpts m' k Hk) as [[v Hv] _].
    apply lookup_insert_Some in Hv as [[<- _]|[_ Hv]].
    + by eexists.
    + by rewrite lookup_empty in Hv.
Qed.

(** ** SetupLogging as a whole *)

Lemma count_hooks_app p hs1 hs2 :
  count_hooks p (hs1 ++ hs2) = count_hooks p hs1 + count_hooks p hs2.
Proof. unfold count_hooks. by rewrite List.filter_app, length_app. Qed.

Lemma count_fluent_fmap (hs : list FluentHook) :
  count_hooks is_fluent (HFluent <$> hs) = length hs.
Proof. unfold count_hooks. induction hs; simpl; auto. Qed.

Lemma count_syslog_fmap (hs : list FluentHook) :
  count_hooks is_syslog (HFluent <$> hs) = 0.
Proof. unfold count_hooks. induction hs; simpl; auto. Qed.

(** Every run keeps the caller's options and all older maps.  Either the
    always-on part did not get through, and then no hook was added and
    the call did not succeed; or it did, and then the hooks added are one
    syslog hook followed by fluentd hooks, one for each "fluentd" the loop
    got past. *)
Lemma SetupLogging_summary E loggers (logOpts : loc) tag s :
  let o := SetupLogging E loggers logOpts tag s in
  deref (final_state o) logOpts = deref s logOpts ∧
  extends s (final_state o) ∧
  ((hooks (final_state o) = hooks s ∧ ∀ s', o ≠ Returns None s') ∨
   (∃ level (hs : list FluentHook),
      ParseLevel (default "info" (deref s logOpts !! "syslog.level"))
        = Some level ∧
      syslog_Dial E "" "" (syslogLevelMap_at level) tag = true ∧
      emitter (final_state o)
        = add_hooks (HFluent <$> hs)
            (always_on_emitter E level tag (emitter s)) ∧
      (length hs ≤ count_fluentd loggers)%nat ∧
      (∀ s', o = Returns None s' → length hs = count_fluentd loggers))).
Proof.
  intros o. subst o. rewrite SetupLogging_split.
  pose proof (always_on_outcome E logOpts tag s) as Ha. cbn zeta in Ha.
  destruct (always_on E logOpts tag s) as [[e|] s0|why s0];
    simpl in Ha; destruct Ha as (Hd & Hx & Ha).
  - simpl. split; [done|]. split; [done|]. left. by destruct Ha as [-> _].
  - destruct Ha as (_ & level & Hlvl & Hdial & Hem).
    pose proof (logger_loop_summary E logOpts loggers s0) as Hl.
    cbn zeta in Hl.
    destruct Hl as (Hd' & Hx' & Hnn & hs & Hem' & Hle & Hall).
    set (loop := for_range loggers (setup_logger E logOpts) s0) in *.
    assert (final_state
              match loop with
              | Returns (Some e) s' => Returns e s'
              | Returns None s' => Returns None s'
              | Exits why s' => Exits why s'
              end = final_state loop) as ->.
    { by destruct loop as [[?|] ?|]. }
    split; [by rewrite Hd'|]. split; [by eapply extends_trans|].
    right. exists level, hs. rewrite Hem', Hem.
    split; [done|]. split; [done|]. split; [done|]. split; [done|].
    intros s' Hs'. destruct loop as [[[e|]|] s1|why s1]; try done.
    + by destruct (Hnn s1).
    + by apply (Hall s1).
  - simpl. split; [done|]. split; [done|]. left. by destruct Ha as [-> _].
Qed.

(** C9, options are only read: whatever the outcome, after SetupLogging
    and after getLogDriverConfig the map the caller passed holds the
    entries it held before, no more and no fewer, and so does every other
    map that existed before the call. *)
Theorem options_map_not_mutated E loggers logDriver (logOpts : loc) tag s :
  let after_setup := final_state (SetupLogging E loggers logOpts tag s) in
  let after_partition :=
    final_state (getLogDriverConfig E logDriver logOpts s) in
  deref after_setup logOpts = deref s logOpts ∧
  deref after_partition logOpts = deref s logOpts ∧
  (∀ k, deref after_setup logOpts !! k = deref s logOpts !! k) ∧
  (∀ k, deref after_partition logOpts !! k = deref s logOpts !! k) ∧
  (∀ l : loc, l < length (maps s) →
     maps after_setup !! l = maps s !! l ∧
     maps after_partition !! l = maps s !! l).
Proof.
  intros after_setup after_partition.
  destruct (SetupLogging_summary E loggers logOpts tag s) as (Hd & Hx & _).
  fold after_setup in Hd, Hx.
  assert (deref after_partition logOpts = deref s logOpts
          ∧ extends s after_partition) as [Hd' Hx'].
  { subst after_partition.
    destruct (getLogDriverConfig_cases E logDriver logOpts s)
      as [->|(_ & _ & k & ->)]; simpl.
    - split; [apply deref_push_filter|apply extends_push].
    - split; [apply deref_push_empty|apply extends_push]. }
  split; [done|]. split; [done|].
  split; [by rewrite Hd|]. split; [by rewrite Hd'|].
  intros l Hl. split; by apply extends_lookup.
Qed.

Lemma options_map_not_mutated_witness :
  let m : gmap string string :=
    <["syslog.level" := "debug"]> (<["fluentd.tag" := "cilium"]> ∅) in
  let s' := final_state
    (SetupLogging sample_env ["fluentd"; "syslog"] 0 "tag" (start m)) in
  maps s' !! 0 = Some m.
Proof.
  intros m s'.
  destruct (options_map_not_mutated sample_env ["fluentd"; "syslog"] "fluentd"
              0 "tag" (start m)) as (_ & _ & _ & _ & Hframe).
  destruct (Hframe 0) as [H _].
  - simpl. lia.
  - exact H.
Defined.

(** ** Validation *)

(** C4: validateOpts never ends the process and never changes the state;
    it returns nil exactly when every key of the options it is given is in
    the table, and otherwise the UnsupportedOption error for the driver
    and for one of the keys that are not.  When the options partitioned
    for syslog hold such a key, SetupLogging returns that error with no
    hook added; when the options partitioned for fluentd do, the loop body
    returns it with the emitter untouched. *)
Theorem validateOpts_rejects_unlisted_keys
    E logDriver (logOpts : loc) supportedOpts loggers tag s :
  let m := deref s logOpts in
  (∃ r, validateOpts E logDriver logOpts supportedOpts s = Returns r s ∧
     (r = None ↔ ∀ k, is_Some (m !! k) → supported supportedOpts k = true) ∧
     ((∃ k, r = Some (UnsupportedOption k logDriver)) ↔
      (∃ k, is_Some (m !! k) ∧ supported supportedOpts k = false)) ∧
     (∀ e, r = Some e →
        ∃ k, e = UnsupportedOption k logDriver ∧ is_Some (m !! k) ∧
             supported supportedOpts k = false)) ∧
  (∀ k, is_Some (syslog_opts m !! k) → supported syslogOpts k = false →
     ∃ k' s', SetupLogging E loggers logOpts tag s
                = Returns (Some (UnsupportedOption k' "syslog")) s' ∧
              hooks s' = hooks s) ∧
  (∀ k, is_Some (fluentd_opts m !! k) → supported fluentDOpts k = false →
     ∃ k' s', setup_logger E logOpts "fluentd" s
                = Returns (Some (Some (UnsupportedOption k' "fluentd"))) s' ∧
              emitter s' = emitter s).
Proof.
  intros m. split; [|split].
  - rewrite validateOpts_eq. fold m.
    destruct (first_unsupported supportedOpts (range E m)) as [k|] eqn:Hf.
    + destruct (first_unsupported_Some E supportedOpts m k Hf) as [Hk Hs].
      eexists. split; [done|]. simpl. split; [|split].
      * split; [done|]. intros Hall. rewrite (Hall k Hk) in Hs. done.
      * split; eauto.
      * intros e [= <-]. eauto.
    + pose proof (proj1 (first_unsupported_None E supportedOpts m) Hf) as Hall.
      eexists. split; [done|]. simpl. split; [|split].
      * done.
      * split; [by intros [? ?]|]. intros (k & Hk & Hs).
        rewrite (Hall k Hk) in Hs. done.
      * done.
  - intros k Hk Hs.
    destruct (first_unsupported_is_Some E syslogOpts _ k Hk Hs) as [k' Hf].
    rewrite SetupLogging_split, always_on_eq. fold m. rewrite Hf.
    by eexists _, _.
  - intros k Hk Hs.
    destruct (first_unsupported_is_Some E fluentDOpts _ k Hk Hs) as [k' Hf].
    rewrite setup_logger_fluentd. fold m. rewrite Hf.
    by eexists _, _.
Qed.

Lemma validateOpts_rejects_unlisted_keys_witness :
  let m : gmap string string :=
    <["fluentd.level" := "warn"]> (<["fluentd.color" := "red"]> ∅) in
  ∃ k' s', setup_logger sample_env 0 "fluentd" (start m)
             = Returns (Some (Some (UnsupportedOption k' "fluentd"))) s' ∧
           emitter s' = emitter (start m).
Proof.
  intros m.
  destruct (validateOpts_rejects_unlisted_keys sample_env "fluentd" 0
              fluentDOpts [] "tag" (start m)) as (_ & _ & H).
  apply (H "fluentd.color").
  - vm_compute. eauto.
  - vm_compute. reflexivity.
Defined.

(** ** Repeated names *)

(** The name "fluentd" given twice: the call succeeds and the emitter ends
    up with two fluentd hooks, not one. *)
Lemma fluentd_twice_installs_two_hooks :
  let o := SetupLogging sample_env ["fluentd"; "fluentd"] 0 "tag" (start ∅) in
  o = Returns None (final_state o) ∧
  count_hooks is_fluent (hooks (final_state o)) = 2 ∧
  count_hooks is_fluent (hooks (final_state o)) ≠ 1.
Proof. by vm_compute. Qed.

(** C2 as the code has it: when SetupLogging succeeds it has added one
    fluentd hook for every occurrence of "fluentd" among the requested
    names; repeated occurrences are not merged. *)
Theorem fluentd_installed_per_occurrence E loggers (logOpts : loc) tag s s' :
  SetupLogging E loggers logOpts tag s = Returns None s' →
  count_hooks is_fluent (hooks s')
  = count_hooks is_fluent (hooks s) + count_fluentd loggers.
Proof.
  intros Hrun.
  destruct (SetupLogging_summary E loggers logOpts tag s) as (_ & _ & Hs).
  rewrite Hrun in Hs. simpl in Hs.
  destruct Hs as [[_ Hno]|(level & hs & _ & _ & Hem & _ & Hall)].
  { by destruct (Hno s'). }
  unfold hooks. rewrite Hem. simpl.
  rewrite <-app_assoc, !count_hooks_app, count_fluent_fmap.
  rewrite (Hall s' eq_refl). unfold count_hooks. simpl. lia.
Qed.

Lemma fluentd_installed_per_occurrence_witness :
  let loggers := ["fluentd"; "syslog"; "fluentd"; "fluentd"] in
  let o := SetupLogging sample_env loggers 0 "tag" (start ∅) in
  o = Returns None (final_state o) ∧
  count_hooks is_fluent (hooks (final_state o)) = 0 + 3.
Proof.
  intros loggers o.
  assert (o = Returns None (final_state o)) as Hrun by (by vm_compute).
  split; [exact Hrun|].
  exact (fluentd_installed_per_occurrence sample_env loggers 0 "tag"
           (start ∅) (final_state o) Hrun).
Defined.

(** ** The always-on sink *)

(** An option the syslog table does not list: the call returns the error
    before setupSyslog runs, and no syslog hook is installed at all. *)
Lemma unlisted_syslog_option_installs_no_hook :
  let m : gmap string string := <["syslog.facility" := "local0"]> ∅ in
  let o := SetupLogging sample_env [] 0 "tag" (start m) in
  o = Returns (Some (UnsupportedOption "syslog.facility" "syslog"))
        (final_state o) ∧
  count_hooks is_syslog (hooks (final_state o)) = 0 ∧
  count_hooks is_syslog (hooks (final_state o)) ≠ 1.
Proof. by vm_compute. Qed.

(** The always-on part gets through exactly when the syslog options
    validate, the level parses and the hook can be created. *)
Lemma always_on_through E (logOpts : loc) tag s level :
  let m := deref s logOpts in
  (∀ k, is_Some (syslog_opts m !! k) → supported syslogOpts k = true) →
  ParseLevel (default "info" (m !! "syslog.level")) = Some level →
  syslog_Dial E "" "" (syslogLevelMap_at level) tag = true →
  ∃ s0, always_on E logOpts tag s = Returns None s0 ∧
        emitter s0 = always_on_emitter E level tag (emitter s) ∧
        deref s0 logOpts = m ∧ extends s s0.
Proof.
  intros m Hval Hlvl Hdial.
  pose proof (always_on_outcome E logOpts tag s) as Ho. cbn zeta in Ho.
  rewrite always_on_eq in *. fold m in Ho |- *.
  rewrite (proj2 (first_unsupported_None E syslogOpts (syslog_opts m)) Hval)
    in *.
  rewrite Hlvl, Hdial in *. simpl in Ho.
  destruct Ho as (Hd & Hx & _). eexists. split; [done|]. by repeat split.
Qed.

(** C3 as the code has it: when the syslog options validate, the level
    parses and the syslog hook can be created, the call installs exactly
    one syslog hook, ahead of every other hook it adds, whatever names
    were requested and however the rest of the call ends; each "syslog"
    among the names is passed over with no error and no change to the
    emitter. *)
Theorem syslog_installed_once_when_it_validates
    E loggers (logOpts : loc) tag s level :
  let m := deref s logOpts in
  let o := SetupLogging E loggers logOpts tag s in
  (∀ k, is_Some (syslog_opts m !! k) → supported syslogOpts k = true) →
  ParseLevel (default "info" (m !! "syslog.level")) = Some level →
  syslog_Dial E "" "" (syslogLevelMap_at level) tag = true →
  (∃ hs : list FluentHook,
     hooks (final_state o)
     = hooks s ++ HSyslog (syslog_hook level tag) :: (HFluent <$> hs)) ∧
  count_hooks is_syslog (hooks (final_state o))
  = count_hooks is_syslog (hooks s) + 1 ∧
  (∀ s1, ∃ s2, setup_logger E logOpts "syslog" s1 = Returns None s2 ∧
               emitter s2 = emitter s1).
Proof.
  intros m o Hval Hlvl Hdial.
  destruct (always_on_through E logOpts tag s level Hval Hlvl Hdial)
    as (s0 & Ha & Hem & _ & _).
  assert (∃ hs : list FluentHook,
            hooks (final_state o)
            = hooks s ++ HSyslog (syslog_hook level tag) :: (HFluent <$> hs))
    as [hs Hhs].
  { subst o. rewrite SetupLogging_split, Ha.
    destruct (logger_loop_summary E logOpts loggers s0)
      as (_ & _ & _ & hs & Hem' & _).
    exists hs.
    set (loop := for_range loggers (setup_logger E logOpts) s0) in *.
    assert (final_state
              match loop with
              | Returns (Some e) s' => Returns e s'
              | Returns None s' => Returns None s'
              | Exits why s' => Exits why s'
              end = final_state loop) as ->.
    { by destruct loop as [[?|] ?|]. }
    unfold hooks. rewrite Hem', Hem. simpl. by rewrite <-app_assoc. }
  split; [eauto|]. split.
  - rewrite Hhs. rewrite count_hooks_app.
    change (HSyslog (syslog_hook level tag) :: (HFluent <$> hs))
      with ([HSyslog (syslog_hook level tag)] ++ (HFluent <$> hs)).
    rewrite count_hooks_app, count_syslog_fmap. unfold count_hooks. simpl. lia.
  - intros s1. rewrite setup_logger_syslog. by eexists.
Qed.

Lemma syslog_installed_once_when_it_validates_witness :
  let m : gmap string string := <["syslog.level" := "error"]> ∅ in
  let loggers := ["syslog"; "fluentd"; "syslog"] in
  let o := SetupLogging sample_env loggers 0 "tag" (start m) in
  count_hooks is_syslog (hooks (final_state o)) = 0 + 1.
Proof.
  intros m loggers o.
  refine (proj1 (proj2 (syslog_installed_once_when_it_validates sample_env
            loggers 0 "tag" (start m) ErrorLevel _ _ _))).
  - intros k [v Hk]. revert Hk. unfold syslog_opts.
    rewrite map_lookup_filter_Some.
    change (deref (start m) 0) with m. unfold m.
    intros [Hk _]. apply lookup_insert_Some in Hk as [[<- _]|[_ Hk]]; [done|].
    by rewrite lookup_empty in Hk.
  - reflexivity.
  - reflexivity.
Defined.

(** ** Names that are no log driver *)

(** An unknown name behind a "fluentd" whose options do not validate: the
    call returns the validation error, not the error for the unknown
    name. *)
Lemma unknown_name_not_reported_after_earlier_error :
  let m : gmap string string := <["fluentd.color" := "red"]> ∅ in
  let o := SetupLogging sample_env ["fluentd"; "unknown-sink"] 0 "tag"
             (start m) in
  o = Returns (Some (UnsupportedOption "fluentd.color" "fluentd"))
        (final_state o) ∧
  o ≠ Returns (Some (UnsupportedDriver "unknown-sink")) (final_state o).
Proof. by vm_compute. Qed.

(** C5 as the code has it: let [n] be a name other than "syslog" and
    "fluentd", and let the call with only the names before [n] succeed,
    ending in state [s1].  If the options can be partitioned for [n] (the
    options are empty, or [n] compiles as a pattern), the call with [n]
    and any further names returns the error for [n], with the emitter as
    it was in [s1]: nothing is installed for [n] or for a later name. *)
Theorem unknown_driver_error_when_reached
    E pre n post (logOpts : loc) tag s s1 :
  n ≠ "syslog" → n ≠ "fluentd" →
  SetupLogging E pre logOpts tag s = Returns None s1 →
  deref s logOpts = ∅ ∨ regexp_compiles E (n +:+ ".*") = true →
  ∃ s2, SetupLogging E (pre ++ n :: post) logOpts tag s
          = Returns (Some (UnsupportedDriver n)) s2 ∧
        emitter s2 = emitter s1 ∧
        hooks s2 = hooks s1.
Proof.
  intros Hn1 Hn2 Hpre Hok.
  rewrite SetupLogging_split in Hpre. rewrite SetupLogging_split.
  pose proof (always_on_outcome E logOpts tag s) as Ha. cbn zeta in Ha.
  destruct (always_on E logOpts tag s) as [[e|] s0|why s0]; try done.
  simpl in Ha. destruct Ha as (Hd0 & _ & _).
  destruct (logger_loop_summary E logOpts pre s0) as (Hd1 & _ & Hnn & _).
  rewrite for_range_app.
  destruct (for_range pre (setup_logger E logOpts) s0)
    as [[[e|]|] s1'|why s1'] eqn:Hloop; try done.
  { by destruct (Hnn s1'). }
  injection Hpre as ->. simpl in Hd1.
  cbn [for_range]. unfold bind. rewrite setup_logger_other by done.
  rewrite getLogDriverConfig_returns by (by rewrite Hd1, Hd0).
  by eexists.
Qed.

Lemma unknown_driver_error_when_reached_witness :
  let o := SetupLogging sample_env ["unknown-sink"] 0 "tag" (start ∅) in
  ∃ s2, o = Returns (Some (UnsupportedDriver "unknown-sink")) s2 ∧
        hooks s2 = [HSyslog (syslog_hook InfoLevel "tag")].
Proof.
  intros o.
  destruct (unknown_driver_error_when_reached sample_env [] "unknown-sink" []
              0 "tag" (start ∅)
              (final_state (SetupLogging sample_env [] 0 "tag" (start ∅))))
    as (s2 & Hrun & _ & Hhooks).
  - discriminate.
  - discriminate.
  - vm_compute. reflexivity.
  - left. reflexivity.
  - exists s2. split; [exact Hrun|]. rewrite Hhooks. vm_compute. reflexivity.
Defined.

(** A name that does not compile as a pattern, with options to try it
    on: the process ends in getLogDriverConfig, before the name is looked
    at. *)
Lemma setup_logger_bad_pattern E (logOpts : loc) logger s :
  deref s logOpts ≠ ∅ → regexp_compiles E (logger +:+ ".*") = false →
  ∃ k, setup_logger E logOpts logger s
       = Exits (BadPattern k logger) (push s ∅).
Proof.
  intros Hne Hc.
  destruct (getLogDriverConfig_exits E logger logOpts s Hne Hc)
    as (k & _ & Hk).
  exists k. unfold setup_logger, bind. by rewrite Hk.
Qed.

(** ** Levels that do not parse, and the defaults *)






(** * Further properties of the code *)

(** ** getLogDriverConfig: what the new map holds *)

(** X1: when getLogDriverConfig returns, its result is a freshly allocated
    map, the emitter and all older maps are as before, and the new map
    holds exactly the entries of the options whose key the pattern finds a
    match in, each with its value, whatever order the options were visited
    in. *)
Theorem getLogDriverConfig_result E logDriver (logOpts : loc) s l' s' :
  getLogDriverConfig E logDriver logOpts s = Returns l' s' →
  l' = length (maps s) ∧
  maps s' = maps s ++ [deref s' l'] ∧
  emitter s' = emitter s ∧
  deref s' l' ⊆ deref s logOpts ∧
  (∀ k v, deref s' l' !! k = Some v ↔
          deref s logOpts !! k = Some v ∧
          regexp_matches E (logDriver +:+ ".*") k = true).
Proof.
  intros Hrun.
  destruct (getLogDriverConfig_cases E logDriver logOpts s)
    as [Heq|(_ & _ & k & Heq)]; rewrite Heq in Hrun; [|done].
  injection Hrun as <- <-. rewrite deref_push_new.
  split; [done|]. split; [done|]. split; [done|].
  split; [apply map_filter_subseteq|].
  intros k v. by rewrite map_lookup_filter_Some.
Qed.

Lemma getLogDriverConfig_result_witness :
  let m : gmap string string :=
    <["fluentd.tag" := "cilium"]> (<["syslog.level" := "debug"]> ∅) in
  let o := getLogDriverConfig sample_env "fluentd" 0 (start m) in
  maps (final_state o) = [m; <["fluentd.tag" := "cilium"]> ∅].
Proof.
  intros m o.
  destruct (getLogDriverConfig_result sample_env "fluentd" 0 (start m)
              1 (final_state o)) as (_ & Hmaps & _).
  - vm_compute. reflexivity.
  - rewrite Hmaps. vm_compute. reflexivity.
Defined.

Lemma prefix_app_l (p q k : string) :
  String.prefix (p +:+ q) k = true → String.prefix p k = true.
Proof.
  revert k. induction p as [|a p IH]; intros k; [by destruct k|].
  destruct k as [|b k]; simpl; [done|].
  destruct (Ascii.ascii_dec a b); [apply IH|done].
Qed.

Lemma HasPrefix_Contains (k p q : string) :
  HasPrefix k (p +:+ q) = true → Contains k p = true.
Proof.
  intros H%prefix_app_l. destruct k; cbn [Contains]; unfold HasPrefix;
    by rewrite H.
Qed.

(** X2: for a plain name, every option whose key starts with the name
    followed by a dot is in the map getLogDriverConfig returns: substring
    matching captures more than the prefix rule, never less. *)
Theorem getLogDriverConfig_keeps_prefixed_keys
    E logDriver (logOpts : loc) s l' s' :
  plain_name logDriver = true →
  getLogDriverConfig E logDriver logOpts s = Returns l' s' →
  partition_by_prefix logDriver (deref s logOpts) ⊆ deref s' l'.
Proof.
  intros Hp Hrun.
  rewrite (getLogDriverConfig_plain E logDriver logOpts s Hp) in Hrun.
  injection Hrun as <- <-. rewrite deref_push_new.
  unfold partition_by_prefix. apply map_filter_subseteq_ext.
  intros k v _. simpl. apply HasPrefix_Contains.
Qed.

Lemma getLogDriverConfig_keeps_prefixed_keys_witness :
  let m : gmap string string :=
    <["fluentd.tag" := "cilium"]> (<["xfluentd" := "1"]> ∅) in
  let o := getLogDriverConfig sample_env "fluentd" 0 (start m) in
  partition_by_prefix "fluentd" m ⊆ deref (final_state o) 1.
Proof.
  intros m o.
  apply (getLogDriverConfig_keeps_prefixed_keys sample_env "fluentd" 0
           (start m) 1 (final_state o)).
  - reflexivity.
  - vm_compute. reflexivity.
Defined.

(** The entry the loop of getLogDriverConfig tries first decides the exit:
    with a pattern that does not compile, that is where the process
    ends. *)
Lemma getLogDriverConfig_exits_at E logDriver (logOpts : loc) s kv kvs :
  range E (deref s logOpts) = kv :: kvs →
  regexp_compiles E (logDriver +:+ ".*") = false →
  getLogDriverConfig E logDriver logOpts s
  = Exits (BadPattern kv.1 logDriver) (push s ∅).
Proof.
  intros Hr Hc. unfold getLogDriverConfig, bind at 1, make_map.
  change (with_maps _ s) with (push s ∅).
  unfold bind at 1, entries. rewrite deref_push_empty, Hr.
  cbn [for_range]. unfold bind, MatchString. by rewrite Hc.
Qed.

(** X3: getLogDriverConfig ends the process exactly when the pattern built
    from the name does not compile and there is an option to try it on;
    with no options it returns an empty map for every name.  When it ends
    the process, it has allocated the new map and stored nothing in it. *)
Theorem getLogDriverConfig_exits_iff E logDriver (logOpts : loc) s :
  ((∃ why s', getLogDriverConfig E logDriver logOpts s = Exits why s') ↔
   (deref s logOpts ≠ ∅ ∧ regexp_compiles E (logDriver +:+ ".*") = false)) ∧
  (∀ why s', getLogDriverConfig E logDriver logOpts s = Exits why s' →
     s' = push s ∅ ∧
     ∃ k, why = BadPattern k logDriver ∧ is_Some (deref s logOpts !! k)) ∧
  (deref s logOpts = ∅ →
   getLogDriverConfig E logDriver logOpts s
   = Returns (length (maps s)) (push s ∅)).
Proof.
  split; [|split].
  - split.
    + intros (why & s' & Hrun).
      destruct (getLogDriverConfig_cases E logDriver logOpts s)
        as [Heq|(Hne & Hc & _)]; [by rewrite Heq in Hrun|done].
    + intros [Hne Hc].
      destruct (getLogDriverConfig_exits E logDriver logOpts s Hne Hc)
        as (k & _ & Hk). eauto.
  - intros why s' Hrun.
    destruct (getLogDriverConfig_cases E logDriver logOpts s)
      as [Heq|(Hne & Hc & _)]; [by rewrite Heq in Hrun|].
    destruct (getLogDriverConfig_exits E logDriver logOpts s Hne Hc)
      as (k & Hk & Heq).
    rewrite Heq in Hrun. injection Hrun as <- <-. eauto.
  - intros Hem. rewrite getLogDriverConfig_returns by (by left).
    by rewrite Hem, map_filter_empty.
Qed.

(** X4: partitioning is idempotent for a plain name: partitioning the map
    a first call returned, by the same name, returns a map with the same
    entries. *)
Theorem getLogDriverConfig_idempotent E logDriver (logOpts : loc) s l1 s1 :
  plain_name logDriver = true →
  getLogDriverConfig E logDriver logOpts s = Returns l1 s1 →
  ∃ l2 s2, getLogDriverConfig E logDriver l1 s1 = Returns l2 s2 ∧
           deref s2 l2 = deref s1 l1 ∧ l2 ≠ l1.
Proof.
  intros Hp Hrun.
  rewrite (getLogDriverConfig_plain E logDriver logOpts s Hp) in Hrun.
  injection Hrun as <- <-.
  rewrite (getLogDriverConfig_plain E logDriver _ _ Hp).
  eexists _, _. split; [done|]. rewrite !deref_push_new. split.
  - apply map_filter_id. intros k v [_ H]%map_lookup_filter_Some. exact H.
  - simpl. rewrite length_app. simpl. lia.
Qed.

Lemma getLogDriverConfig_idempotent_witness :
  let m : gmap string string :=
    <["fluentd.tag" := "cilium"]> (<["syslog.level" := "debug"]> ∅) in
  let o := getLogDriverConfig sample_env "fluentd" 0 (start m) in
  ∃ l2 s2, getLogDriverConfig sample_env "fluentd" 1 (final_state o)
             = Returns l2 s2 ∧
           deref s2 l2 = deref (final_state o) 1 ∧ l2 ≠ 1.
Proof.
  intros m o.
  apply (getLogDriverConfig_idempotent sample_env "fluentd" 0 (start m)).
  - reflexivity.
  - vm_compute. reflexivity.
Defined.

(** ** validateOpts: which key is reported *)

(** X5: when exactly one key of the options is not in the table,
    validateOpts reports that key, whatever order the options are visited
    in; the state is left as it was. *)
Theorem validateOpts_reports_the_only_unlisted_key
    E logDriver (logOpts : loc) supportedOpts s k :
  is_Some (deref s logOpts !! k) →
  supported supportedOpts k = false →
  (∀ k', is_Some (deref s logOpts !! k') →
         supported supportedOpts k' = false → k' = k) →
  validateOpts E logDriver logOpts supportedOpts s
  = Returns (Some (UnsupportedOption k logDriver)) s.
Proof.
  intros Hk Hs Honly. rewrite validateOpts_eq.
  destruct (first_unsupported_is_Some E supportedOpts _ k Hk Hs) as [k' Hf].
  rewrite Hf. simpl.
  destruct (first_unsupported_Some E supportedOpts _ k' Hf) as [Hk' Hs'].
  by rewrite (Honly k' Hk' Hs').
Qed.

Lemma validateOpts_reports_the_only_unlisted_key_witness :
  let m : gmap string string :=
    <["fluentd.tag" := "cilium"]> (<["fluentd.color" := "red"]> ∅) in
  validateOpts sample_env "fluentd" 0 fluentDOpts (start m)
  = Returns (Some (UnsupportedOption "fluentd.color" "fluentd")) (start m).
Proof.
  intros m.
  apply (validateOpts_reports_the_only_unlisted_key sample_env "fluentd" 0
           fluentDOpts (start m) "fluentd.color").
  - vm_compute. eauto.
  - reflexivity.
  - intros k' [v Hk'] Hs. change (deref (start m) 0) with m in Hk'.
    unfold m in Hk'.
    apply lookup_insert_Some in Hk' as [[<- _]|[_ Hk']]; [done|].
    apply lookup_insert_Some in Hk' as [[<- _]|[_ Hk']]; [done|].
    by rewrite lookup_empty in Hk'.
Defined.

(** ** setupFluentD and setupSyslog *)

Lemma setupFluentD_eq E (logOpts : loc) s :
  setupFluentD E logOpts s =
  match fluentd_attempt E (deref s logOpts) with
  | inl why => Exits why s
  | inr h => Returns tt (with_emitter (add_hooks [HFluent h]) s)
  end.
Proof.
  unfold setupFluentD, fluentd_attempt, bind, entries.
  destruct (ParseLevel _) as [level|]; [|done].
  destruct (default _ (SplitHostPort E _)) as [host strPort].
  destruct (Atoi E strPort) as [port|]; [|done].
  unfold fluent_New. destruct (fluent_connect E host port); [|done].
  unfold AddHook, modify_emitter, with_emitter, add_hooks, fluent_hook.
  simpl. by destruct (deref s logOpts !! "fluentd.tag").
Qed.

(** X6: an address that net.SplitHostPort rejects ends the process with
    the error of strconv.Atoi on the empty string: the error of the split
    is overwritten before it is looked at.  Nothing is installed. *)
Theorem setupFluentD_split_error_is_port_error E (logOpts : loc) s level :
  let m := deref s logOpts in
  ParseLevel (default "info" (m !! "fluentd.level")) = Some level →
  SplitHostPort E (default "localhost:24224" (m !! "fluentd.address")) = None →
  setupFluentD E logOpts s = Exits (BadPort "") s.
Proof.
  intros m Hlvl Hsplit. rewrite setupFluentD_eq. unfold fluentd_attempt.
  fold m. rewrite Hlvl, Hsplit. simpl. by rewrite (Atoi_empty E).
Qed.

Lemma setupFluentD_split_error_is_port_error_witness :
  let m : gmap string string := <["fluentd.address" := "collector"]> ∅ in
  setupFluentD sample_env 0 (start m) = Exits (BadPort "") (start m).
Proof.
  intros m.
  apply (setupFluentD_split_error_is_port_error sample_env 0 (start m)
           InfoLevel); reflexivity.
Defined.

(** X7: when setupFluentD returns, the address (the option or the default
    "localhost:24224") did split, the port did parse and the collector was
    reached; exactly one hook was added, for that host and port, with the
    tag set exactly when the option "fluentd.tag" is present; the level,
    output and formatter of the emitter and the store are as before. *)
Theorem setupFluentD_installs_one_hook E (logOpts : loc) s s' :
  let m := deref s logOpts in
  setupFluentD E logOpts s = Returns tt s' →
  ∃ level host strPort port,
    ParseLevel (default "info" (m !! "fluentd.level")) = Some level ∧
    SplitHostPort E (default "localhost:24224" (m !! "fluentd.address"))
      = Some (host, strPort) ∧
    Atoi E strPort = Some port ∧
    fluent_connect E host port = true ∧
    hooks s' = hooks s ++
      [HFluent {| fh_host := host; fh_port := port;
                  fh_tag := m !! "fluentd.tag";
                  fh_levels := setFireLevels level |}] ∧
    em_level (emitter s') = em_level (emitter s) ∧
    em_out (emitter s') = em_out (emitter s) ∧
    em_formatter (emitter s') = em_formatter (emitter s) ∧
    maps s' = maps s.
Proof.
  intros m. rewrite setupFluentD_eq. unfold fluentd_attempt. fold m.
  destruct (ParseLevel _) as [level|]; [|done].
  destruct (SplitHostPort E _) as [[host strPort]|] eqn:Hsplit; simpl.
  - destruct (Atoi E strPort) as [port|] eqn:Hport; [|done].
    destruct (fluent_connect E host port) eqn:Hconn; [|done].
    intros [= <-]. by exists level, host, strPort, port.
  - by rewrite (Atoi_empty E).
Qed.

Lemma setupFluentD_installs_one_hook_witness :
  let m : gmap string string := <["fluentd.tag" := "cilium"]> ∅ in
  let o := setupFluentD sample_env 0 (start m) in
  ∃ level, hooks (final_state o) =
    [HFluent {| fh_host := "localhost"; fh_port := 24224;
                fh_tag := Some "cilium";
                fh_levels := setFireLevels level |}].
Proof.
  intros m o.
  destruct (setupFluentD_installs_one_hook sample_env 0 (start m)
              (final_state o))
    as (level & host & strPort & port & _ & Hs & Hp & _ & Hh & _).
  - vm_compute. reflexivity.
  - exists level. rewrite Hh. vm_compute in Hs. injection Hs as <- <-.
    vm_compute in Hp. injection Hp as <-. reflexivity.
Defined.

(** ** syslogLevelMap *)

(** X8: on the six levels syslogLevelMap keeps the order of severity (a
    more severe level gets a numerically smaller priority), and its values
    lie between LOG_ALERT and LOG_DEBUG; a value that names no level is
    not in the map and reads as the zero priority LOG_EMERG. *)
Theorem syslogLevelMap_keeps_order (L1 L2 : Level) :
  defined_level L2 → (L1 < L2)%N →
  (syslogLevelMap_at L1 < syslogLevelMap_at L2)%N ∧
  (LOG_ALERT <= syslogLevelMap_at L1)%N ∧
  (syslogLevelMap_at L2 <= LOG_DEBUG)%N ∧
  (∀ L, ¬ defined_level L →
        syslogLevelMap !! L = None ∧ syslogLevelMap_at L = LOG_EMERG).
Proof.
  intros H2 Hlt.
  assert (defined_level L1) as H1 by (unfold defined_level in *; lia).
  split; [|split; [|split]].
  - each_level H1; each_level H2;
      try (exfalso; revert Hlt; by vm_compute); by vm_compute.
  - each_level H1; by vm_compute.
  - each_level H2; by vm_compute.
  - intros L HL.
    assert (syslogLevelMap !! L = None) as Hnone.
    { unfold syslogLevelMap.
      unfold defined_level, PanicLevel, FatalLevel, ErrorLevel, WarnLevel,
        InfoLevel, DebugLevel in *.
      rewrite !lookup_insert_ne by lia. apply lookup_empty. }
    split; [done|]. unfold syslogLevelMap_at, Priority in *. by rewrite Hnone.
Qed.

Lemma syslogLevelMap_keeps_order_witness :
  (syslogLevelMap_at ErrorLevel < syslogLevelMap_at InfoLevel)%N.
Proof.
  refine (proj1 (syslogLevelMap_keeps_order ErrorLevel InfoLevel _ _)).
  - unfold defined_level. vm_compute. discriminate.
  - vm_compute. reflexivity.
Defined.

(** ** setupSyslog *)


(** ** SetupLogging: what decides the result *)

Lemma setup_logger_fluentd_eq E (logOpts : loc) s :
  let sub := fluentd_opts (deref s logOpts) in
  setup_logger E logOpts "fluentd" s =
  match first_unsupported fluentDOpts (range E sub) with
  | Some k => Returns (Some (Some (UnsupportedOption k "fluentd"))) (push s sub)
  | None =>
      match fluentd_attempt E sub with
      | inl why => Exits why (push s sub)
      | inr h =>
          Returns None (with_emitter (add_hooks [HFluent h]) (push s sub))
      end
  end.
Proof.
  intros sub. rewrite setup_logger_fluentd. fold sub.
  destruct (first_unsupported fluentDOpts (range E sub)); [done|].
  rewrite setupFluentD_eq, deref_push_new.
  by destruct (fluentd_attempt E sub).
Qed.

Lemma fluentd_hooks_S E m n h :
  fluentd_attempt E (fluentd_opts m) = inr h →
  fluentd_hooks E m (S n) = HFluent h :: fluentd_hooks E m n.
Proof. intros H. unfold fluentd_hooks. by rewrite H. Qed.

Lemma fluentd_hooks_0 E m : fluentd_hooks E m 0 = [].
Proof. unfold fluentd_hooks. by destruct (fluentd_attempt _ _). Qed.

(** One pass of the loop body from two states whose options have the same
    entries: the same verdict, and the same hooks added. *)
Lemma setup_logger_indep E (l l' : loc) logger s t :
  deref s l = deref t l' →
  let os := setup_logger E l logger s in
  let ot := setup_logger E l' logger t in
  verdict os = verdict ot ∧
  deref (final_state os) l = deref (final_state ot) l' ∧
  ∃ n, (n ≤ 1)%nat ∧
    (n = 1 → logger = "fluentd" ∧ verdict os = inl None) ∧
    (logger = "fluentd" → verdict os = inl None → n = 1) ∧
    emitter (final_state os)
      = add_hooks (fluentd_hooks E (deref s l) n) (emitter s) ∧
    emitter (final_state ot)
      = add_hooks (fluentd_hooks E (deref s l) n) (emitter t).
Proof.
  intros Hm os ot. subst os ot.
  assert (∀ u, emitter u = add_hooks (fluentd_hooks E (deref s l) 0)
                             (emitter u)) as H0.
  { intros u. by rewrite fluentd_hooks_0, add_hooks_nil. }
  destruct (decide (logger = "syslog")) as [->|Hs].
  { rewrite !setup_logger_syslog. simpl. split; [done|].
    split; [unfold syslog_opts; by rewrite !deref_push_filter|].
    exists 0. split; [lia|]. split; [done|]. split; [done|].
    split; apply H0. }
  destruct (decide (logger = "fluentd")) as [->|Hf].
  { rewrite !setup_logger_fluentd_eq. rewrite <-Hm.
    assert (deref (push s (fluentd_opts (deref s l))) l
            = deref (push t (fluentd_opts (deref s l))) l') as Hd.
    { unfold fluentd_opts. rewrite deref_push_filter, Hm.
      by rewrite deref_push_filter. }
    set (sub := fluentd_opts (deref s l)) in *.
    destruct (first_unsupported fluentDOpts (range E sub)) as [k|].
    { simpl. split; [done|]. split; [done|].
      exists 0. split; [lia|]. split; [done|]. split; [done|].
      split; apply H0. }
    destruct (fluentd_attempt E sub) as [why|h] eqn:Hat.
    - simpl. split; [done|]. split; [done|].
      exists 0. split; [lia|]. split; [done|]. split; [done|].
      split; apply H0.
    - simpl. split; [done|]. split; [done|].
      exists 1. split; [lia|]. split; [done|]. split; [done|].
      rewrite (fluentd_hooks_S E (deref s l) 0 h Hat), fluentd_hooks_0.
      done. }
  rewrite !setup_logger_other by done.
  destruct (decide (deref s l = ∅)) as [Hem|Hne].
  { rewrite !getLogDriverConfig_returns by (left; congruence). simpl.
    split; [done|]. split; [by rewrite !deref_push_filter|].
    exists 0. split; [lia|]. split; [done|]. split; [done|].
    split; apply H0. }
  destruct (regexp_compiles E (logger +:+ ".*")) eqn:Hc.
  { rewrite !getLogDriverConfig_returns by (by right). simpl.
    split; [done|]. split; [by rewrite !deref_push_filter|].
    exists 0. split; [lia|]. split; [done|]. split; [done|].
    split; apply H0. }
  destruct (range E (deref s l)) as [|kv kvs] eqn:Hr.
  { destruct Hne. apply map_to_list_empty_iff, Permutation_nil_r.
    by rewrite <-(range_perm E), Hr. }
  rewrite (getLogDriverConfig_exits_at E logger l s kv kvs Hr Hc).
  rewrite Hm in Hr.
  rewrite (getLogDriverConfig_exits_at E logger l' t kv kvs Hr Hc). simpl.
  split; [done|]. split; [by rewrite !deref_push_empty|].
  exists 0. split; [lia|]. split; [done|]. split; [done|].
  split; apply H0.
Qed.

Lemma fluentd_hooks_add E m n1 n2 :
  fluentd_hooks E m (n1 + n2) = fluentd_hooks E m n1 ++ fluentd_hooks E m n2.
Proof.
  unfold fluentd_hooks. destruct (fluentd_attempt _ _); [done|].
  apply replicate_add.
Qed.

Lemma count_fluentd_cons logger loggers :
  count_fluentd (logger :: loggers)
  = (if decide (logger = "fluentd") then 1 else 0) + count_fluentd loggers.
Proof.
  unfold count_fluentd. rewrite filter_cons. by case_decide.
Qed.

(** The loop from two states whose options have the same entries. *)
Lemma logger_loop_indep E (l l' : loc) loggers s t :
  deref s l = deref t l' →
  let os := for_range loggers (setup_logger E l) s in
  let ot := for_range loggers (setup_logger E l') t in
  verdict os = verdict ot ∧
  ∃ n, (n ≤ count_fluentd loggers)%nat ∧
    (verdict os = inl None → n = count_fluentd loggers) ∧
    emitter (final_state os)
      = add_hooks (fluentd_hooks E (deref s l) n) (emitter s) ∧
    emitter (final_state ot)
      = add_hooks (fluentd_hooks E (deref s l) n) (emitter t).
Proof.
  revert s t. induction loggers as [|logger loggers IH]; intros s t Hm.
  { simpl. split; [done|]. exists 0. rewrite fluentd_hooks_0, !add_hooks_nil.
    done. }
  cbn zeta. cbn [for_range]. unfold bind.
  destruct (setup_logger_indep E l l' logger s t Hm)
    as (Hv & Hd & n1 & Hn1 & Hn1f & Hn1c & Hes & Het).
  pose proof (setup_logger_summary E l logger s) as (Hds & _ & _).
  rewrite count_fluentd_cons.
  destruct (setup_logger E l logger s) as [[r|] s1|why s1];
    destruct (setup_logger E l' logger t) as [[r'|] t1|why' t1];
    simpl in Hv, Hd, Hes, Het, Hds, Hn1f, Hn1c; try done.
  - injection Hv as <-. simpl. split; [done|].
    assert (n1 = 0) as ->.
    { destruct n1 as [|[|?]]; [done| |lia]. by destruct Hn1f. }
    exists 0. split; [lia|]. split; [done|]. done.
  - destruct (IH s1 t1 Hd) as (Hv' & n2 & Hn2 & Hn2c & Hes' & Het').
    cbn zeta in *. split; [done|].
    exists (n1 + n2). rewrite Hds in Hes', Het'.
    rewrite fluentd_hooks_add, <-!add_hooks_app, <-Hes, <-Het.
    split; [|split; [|done]].
    + case_decide as Hf; [lia|].
      assert (n1 = 0) as -> by (destruct n1 as [|[|?]]; [done| |lia];
                                 by destruct Hn1f). lia.
    + intros Hs. rewrite (Hn2c Hs). case_decide as Hf.
      * by rewrite Hn1c.
      * destruct n1 as [|[|?]]; [done| |lia]. by destruct Hn1f.
  - injection Hv as <-. simpl. split; [done|].
    assert (n1 = 0) as ->.
    { destruct n1 as [|[|?]]; [done| |lia]. by destruct Hn1f. }
    exists 0. split; [lia|]. split; [done|]. done.
Qed.

(** SetupLogging from two states whose options have the same entries:
    the same verdict, and the same hooks added: none, or one syslog hook
    followed by copies of one fluentd hook. *)
Lemma SetupLogging_indep E loggers (l l' : loc) tag s t :
  deref s l = deref t l' →
  let m := deref s l in
  let os := SetupLogging E loggers l tag s in
  let ot := SetupLogging E loggers l' tag t in
  verdict os = verdict ot ∧
  ∃ hs, hooks (final_state os) = hooks s ++ hs ∧
        hooks (final_state ot) = hooks t ++ hs ∧
        (verdict os = inl None →
         ∃ level,
           ParseLevel (default "info" (m !! "syslog.level")) = Some level ∧
           hs = HSyslog (syslog_hook level tag)
                  :: fluentd_hooks E m (count_fluentd loggers)).
Proof.
  intros Hm m os ot. subst os ot.
  rewrite !SetupLogging_split, !always_on_eq. rewrite <-Hm. fold m.
  assert (∀ u, hooks u = hooks u ++ []) as Hnil.
  { intros u. by rewrite app_nil_r. }
  destruct (first_unsupported syslogOpts (range E (syslog_opts m))) as [k|].
  { simpl. split; [done|]. exists [].
    split; [apply (Hnil s)|]. split; [apply (Hnil t)|]. done. }
  destruct (ParseLevel (default "info" (m !! "syslog.level")))
    as [level|] eqn:Hlvl.
  2: { simpl. split; [done|]. exists [].
       split; [apply (Hnil s)|]. split; [apply (Hnil t)|]. done. }
  destruct (syslog_Dial E "" "" (syslogLevelMap_at level) tag).
  2: { simpl. split; [done|]. exists [].
       split; [apply (Hnil s)|]. split; [apply (Hnil t)|]. done. }
  set (f := λ e, add_hooks [HSyslog (syslog_hook level tag)]
                   (set_level level (set_out Discard e))).
  set (s0 := with_emitter f (push _ (syslog_opts m))).
  set (t0 := with_emitter f (push _ (syslog_opts m))).
  assert (deref s0 l = m) as Hs0.
  { change (deref (push s (syslog_opts (deref s l))) l = deref s l).
    unfold syslog_opts. apply deref_push_filter. }
  assert (deref t0 l' = m) as Ht0.
  { change (deref (push t (syslog_opts m)) l' = m). unfold m.
    rewrite Hm. unfold syslog_opts. apply deref_push_filter. }
  destruct (logger_loop_indep E l l' loggers s0 t0)
    as (Hv & n & Hn & Hnc & Hes & Het); [congruence|].
  destruct (logger_loop_summary E l loggers s0) as (_ & _ & Hnn & _).
  cbn zeta in *. rewrite Hs0 in Hes, Het.
  set (ls := for_range loggers (setup_logger E l) s0) in *.
  set (lt := for_range loggers (setup_logger E l') t0) in *.
  assert (hooks (final_state ls)
          = hooks s ++ HSyslog (syslog_hook level tag) :: fluentd_hooks E m n)
    as Hhs.
  { unfold hooks. rewrite Hes. simpl. by rewrite <-app_assoc. }
  assert (hooks (final_state lt)
          = hooks t ++ HSyslog (syslog_hook level tag) :: fluentd_hooks E m n)
    as Hht.
  { unfold hooks. rewrite Het. simpl. by rewrite <-app_assoc. }
  destruct ls as [[[e|]|] s1|why s1]; destruct lt as [[[e'|]|] t1|why' t1];
    simpl in Hv, Hhs, Hht, Hnc; try done.
  - injection Hv as <-. simpl. split; [done|]. eexists. by repeat split.
  - by destruct (Hnn s1).
  - simpl. split; [done|]. eexists. split; [done|]. split; [done|].
    intros _. exists level. split; [done|]. by rewrite Hnc.
  - injection Hv as <-. simpl. split; [done|]. eexists. by repeat split.
Qed.





(** X12: the fluentd hooks of one successful call are all the same hook.
    The hooks the call adds are the syslog hook followed by one copy, for
    each "fluentd" among the names, of the hook the fluentd options lead
    to. *)
Theorem SetupLogging_fluentd_hooks_are_copies E loggers (l : loc) tag s s' :
  let m := deref s l in
  SetupLogging E loggers l tag s = Returns None s' →
  ∃ level h,
    ParseLevel (default "info" (m !! "syslog.level")) = Some level ∧
    hooks s' = hooks s ++ HSyslog (syslog_hook level tag)
                 :: replicate (count_fluentd loggers) (HFluent h) ∧
    (count_fluentd loggers ≠ 0 →
     fluentd_attempt E (fluentd_opts m) = inr h).
Proof.
  intros m Hrun.
  destruct (SetupLogging_indep E loggers l l tag s s eq_refl)
    as (_ & hs & Hs & _ & Hok).
  rewrite Hrun in Hs, Hok. simpl in Hs, Hok.
  destruct (Hok eq_refl) as (level & Hlvl & ->). fold m in Hs.
  destruct (SetupLogging_summary E loggers l tag s) as (_ & _ & Hsum).
  rewrite Hrun in Hsum. simpl in Hsum.
  destruct Hsum as [[_ Hno]|(level' & fs & _ & _ & Hem & _ & Hall)].
  { by destruct (Hno s'). }
  assert (length (fluentd_hooks E m (count_fluentd loggers))
          = count_fluentd loggers) as Hlen.
  { unfold hooks in Hs. rewrite Hem in Hs. simpl in Hs.
    rewrite <-app_assoc in Hs. apply app_inv_head in Hs.
    injection Hs as _ Hs. rewrite <-Hs, length_fmap. by apply (Hall s'). }
  unfold fluentd_hooks in *.
  destruct (fluentd_attempt E (fluentd_opts m)) as [why|h].
  - simpl in Hlen. rewrite <-Hlen.
    exists level, {| fh_host := ""; fh_port := 0; fh_tag := None;
                     fh_levels := [] |}.
    by split.
  - exists level, h. by split.
Qed.

Lemma SetupLogging_fluentd_hooks_are_copies_witness :
  let loggers := ["fluentd"; "syslog"; "fluentd"] in
  let o := SetupLogging sample_env loggers 0 "tag" (start ∅) in
  ∃ level h, hooks (final_state o)
             = [] ++ HSyslog (syslog_hook level "tag")
                 :: replicate (count_fluentd loggers) (HFluent h).
Proof.
  intros loggers o.
  destruct (SetupLogging_fluentd_hooks_are_copies sample_env loggers 0 "tag"
              (start ∅) (final_state o)) as (level & h & _ & Hh & _).
  - vm_compute. reflexivity.
  - exists level, h. exact Hh.
Defined.

(** ** SetupLogging: which options matter *)

Lemma documented_syslog_opts_validate E (m : gmap string string) :
  (∀ k, is_Some (m !! k) → documented_key k) →
  first_unsupported syslogOpts (range E (syslog_opts m)) = None.
Proof.
  intros Hdoc. apply first_unsupported_None. intros k [v Hk].
  apply map_lookup_filter_Some in Hk as [Hk Hc]. simpl in Hc.
  destruct (Hdoc k) as [->|[->|[->| ->]]]; [eauto|done..].
Qed.

Lemma documented_fluentd_opts_validate E (m : gmap string string) :
  (∀ k, is_Some (m !! k) → documented_key k) →
  first_unsupported fluentDOpts (range E (fluentd_opts m)) = None.
Proof.
  intros Hdoc. apply first_unsupported_None. intros k [v Hk].
  apply map_lookup_filter_Some in Hk as [Hk Hc]. simpl in Hc.
  destruct (Hdoc k) as [->|[->|[->| ->]]]; [eauto|done..].
Qed.

Lemma documented_loop_no_error E (l : loc) loggers :
  Forall (λ n, n = "syslog" ∨ n = "fluentd") loggers →
  ∀ s r s',
    (∀ k, is_Some (deref s l !! k) → documented_key k) →
    for_range loggers (setup_logger E l) s = Returns r s' → r = None.
Proof.
  induction 1 as [|logger loggers Hn _ IH]; intros s r s' Hdoc.
  { by intros [= <- _]. }
  cbn [for_range]. unfold bind.
  pose proof (setup_logger_summary E l logger s) as (Hd & _ & _).
  destruct Hn as [-> | ->].
  - rewrite setup_logger_syslog in *. simpl in Hd.
    apply IH. by rewrite Hd.
  - rewrite setup_logger_fluentd_eq in *.
    rewrite (documented_fluentd_opts_validate E _ Hdoc) in *.
    destruct (fluentd_attempt E _); [done|]. simpl in Hd.
    apply IH. by rewrite Hd.
Qed.

(** X13: options that use only the four keys the tables list are never
    rejected.  When every key is one of "syslog.level", "fluentd.address",
    "fluentd.tag" and "fluentd.level" and every requested name is "syslog"
    or "fluentd", SetupLogging returns no error: it succeeds, or ends the
    process on a value it cannot use. *)
Theorem documented_keys_are_never_rejected E loggers (l : loc) tag s r s' :
  (∀ k, is_Some (deref s l !! k) → documented_key k) →
  Forall (λ n, n = "syslog" ∨ n = "fluentd") loggers →
  SetupLogging E loggers l tag s = Returns r s' →
  r = None.
Proof.
  intros Hdoc Hnames. rewrite SetupLogging_split.
  pose proof (always_on_outcome E l tag s) as Ha. cbn zeta in Ha.
  rewrite always_on_eq in *.
  rewrite (documented_syslog_opts_validate E _ Hdoc) in *.
  destruct (ParseLevel _) as [level|]; [|done].
  destruct (syslog_Dial E "" "" (syslogLevelMap_at level) tag); [|done].
  simpl in Ha. destruct Ha as (Hd & _ & _).
  match goal with
  | |- context [for_range loggers (setup_logger E l) ?s0] =>
      pose proof (documented_loop_no_error E l loggers Hnames s0) as Hloop;
      destruct (for_range loggers (setup_logger E l) s0)
        as [[e|] s1|why s1]; [|by intros [= <- _]|done]
  end.
  rewrite Hd in Hloop. by specialize (Hloop _ _ Hdoc eq_refl).
Qed.

Lemma documented_keys_are_never_rejected_witness :
  let m : gmap string string :=
    <["fluentd.tag" := "cilium"]> (<["syslog.level" := "debug"]> ∅) in
  let o := SetupLogging sample_env ["fluentd"] 0 "tag" (start m) in
  match o with Returns r _ => r | Exits _ _ => None end = None.
Proof.
  intros m o.
  apply (documented_keys_are_never_rejected sample_env ["fluentd"] 0 "tag"
           (start m) _ (final_state o)).
  - intros k [v Hk]. change (deref (start m) 0) with m in Hk. unfold m in Hk.
    apply lookup_insert_Some in Hk as [[<- _]|[_ Hk]];
      [unfold documented_key; tauto|].
    apply lookup_insert_Some in Hk as [[<- _]|[_ Hk]];
      [unfold documented_key; tauto|].
    by rewrite lookup_empty in Hk.
  - constructor; [by right|constructor].
  - vm_compute. reflexivity.
Defined.

Lemma syslog_only_loop E (l : loc) loggers :
  Forall (λ n, n = "syslog") loggers →
  ∀ s, ∃ s', for_range loggers (setup_logger E l) s = Returns None s' ∧
             emitter s' = emitter s.
Proof.
  induction 1 as [|logger loggers -> _ IH]; intros s.
  { by exists s. }
  cbn [for_range]. unfold bind. rewrite setup_logger_syslog.
  destruct (IH (push s (syslog_opts (deref s l)))) as (s' & -> & Hem).
  by exists s'.
Qed.

(** X14: options are looked at only for the sinks that are set up.  When
    no name other than "syslog" is requested, keys that do not contain
    "syslog" are neither validated nor used, whatever they are: if the only
    key containing "syslog" (if any) is "syslog.level", its level parses
    and the hook is created, the call succeeds with the syslog hook as the
    one hook added. *)
Theorem options_of_unrequested_sinks_are_ignored
    E loggers (l : loc) tag s level :
  let m := deref s l in
  Forall (λ n, n = "syslog") loggers →
  (∀ k, is_Some (m !! k) → Contains k "syslog" = true → k = "syslog.level") →
  ParseLevel (default "info" (m !! "syslog.level")) = Some level →
  syslog_Dial E "" "" (syslogLevelMap_at level) tag = true →
  ∃ s', SetupLogging E loggers l tag s = Returns None s' ∧
        hooks s' = hooks s ++ [HSyslog (syslog_hook level tag)].
Proof.
  intros m Hnames Hkeys Hlvl Hdial.
  destruct (always_on_through E l tag s level) as (s0 & Ha & Hem & _ & _);
    [|done|done|].
  { intros k [v Hk]. apply map_lookup_filter_Some in Hk as [Hk Hc].
    by rewrite (Hkeys k (mk_is_Some _ _ Hk) Hc). }
  rewrite SetupLogging_split, Ha.
  destruct (syslog_only_loop E l loggers Hnames s0) as (s' & -> & Hem').
  exists s'. split; [done|]. unfold hooks. by rewrite Hem', Hem.
Qed.

Lemma options_of_unrequested_sinks_are_ignored_witness :
  let m : gmap string string :=
    <["fluentd.color" := "red"]> (<["logstash.address" := "nowhere"]> ∅) in
  ∃ s', SetupLogging sample_env ["syslog"] 0 "tag" (start m)
          = Returns None s' ∧
        hooks s' = [] ++ [HSyslog (syslog_hook InfoLevel "tag")].
Proof.
  intros m.
  apply (options_of_unrequested_sinks_are_ignored sample_env ["syslog"] 0
           "tag" (start m) InfoLevel).
  - constructor; [reflexivity|constructor].
  - intros k [v Hk] Hc. change (deref (start m) 0) with m in Hk.
    unfold m in Hk.
    apply lookup_insert_Some in Hk as [[<- _]|[_ Hk]]; [done|].
    apply lookup_insert_Some in Hk as [[<- _]|[_ Hk]]; [done|].
    by rewrite lookup_empty in Hk.
  - reflexivity.
  - reflexivity.
Defined.



